(** * pyre: the feature algebra and the implication store

    A shallow embedding of the core of [pyre.py]: the class [Phoneme]
    (a wrapper around a dictionary from feature names to Booleans), the
    symbol table [symbols], and the dictionary [constraints] maintained by
    [add_constraint].

    Modelling choices.
    - A feature dictionary is a [gmap string bool]; a [Phoneme] is a record
      around it, as the class wraps [self.features].
    - Loops over [self.features.keys()] run over the key list of the map.
    - [sys.stderr.write] is modelled by returning the list of lines written;
      the rendering printed on standard output is not modelled.
    - The dictionary [constraints] is keyed by Phoneme objects.  A key is
      found by its hash and then by [__eq__], and [__hash__] reads the
      feature dictionary of the object in iteration order: a key object is
      therefore the list of its items in that order, and two objects that
      are [==] may still be two keys.  The interpreter's hash of a tuple
      is a parameter ([TupleHash]); the theorems hold for every hash.
    - [constraints] itself is an association list in iteration order, so
      that the scan order, the [break] and the in-loop [del] are explicit.
      A new key is put last; the interpreter's own order depends on hash
      values, and the general theorems hold for every list, hence for
      every order.  A [KeyError] is the result [None].  A dictionary never
      holds two keys of equal hash that compare equal ([dict_wf]).
    - The parser hands fresh Phoneme objects to every call, so no two
      entries share a feature dictionary, stored keys are never changed,
      and values are passed by copy.
    - Of the grammar, the semantic actions that build phonemes are
      modelled on the list of operands that the parser reduces from left
      to right; lexing and error recovery are not.
    - [sorted] in [__str__] is a sort by the order of strings.
    - The class [Alphabet] of [Features.py] is modelled over any type of
      phonemes that can serve as dictionary keys; [Segment], which needs
      the feature geometry, is not modelled. *)

From stdpp Require Import gmap strings list fin_maps sorting.

(** ** Phonemes *)

Record Phoneme := mkPhoneme { features : gmap string bool }.

(** [Phoneme.__init__(features, plus, minus)]: a copy of [features], then
    every feature of [plus] set to [True], then every one of [minus] set to
    [False] (later updates overwrite earlier ones). *)
Definition Phoneme_init (feats : gmap string bool) (plus minus : gset string) : Phoneme :=
  mkPhoneme (gset_to_gmap false minus ∪ (gset_to_gmap true plus ∪ feats)).

(** [Phoneme()] *)
Definition Phoneme_new : Phoneme := Phoneme_init ∅ ∅ ∅.

(** [self.features.keys()] *)
Definition keys (d : gmap string bool) : list string := (map_to_list d).*1.

(** [feature in d] *)
Definition contains (feature : string) (d : gmap string bool) : bool :=
  match d !! feature with Some _ => true | None => false end.

(** [Phoneme.__getitem__]: the sign, or [None] when the feature is absent. *)
Definition getitem (self : Phoneme) (key : string) : option bool :=
  features self !! key.

(** [x != y] on the values [True], [False] and [None]. *)
Definition sign_ne (x y : option bool) : bool := negb (bool_decide (x = y)).

(** [Phoneme.issubset] *)
Definition issubset (self other : Phoneme) : bool :=
  forallb (fun feature =>
             if contains feature (features other)
             then negb (sign_ne (getitem self feature) (getitem other feature))
             else false)
          (keys (features self)).

(** [Phoneme.__le__]; the [isinstance] test is the type of [other]. *)
Definition Phoneme_le (self other : Phoneme) : bool := issubset self other.

(** [Phoneme.__eq__] *)
Definition Phoneme_eq (self other : Phoneme) : bool :=
  if negb (Nat.eqb (size (features self)) (size (features other))) then false
  else Phoneme_le self other.

(** [Phoneme.__ne__] *)
Definition Phoneme_ne (self other : Phoneme) : bool := negb (Phoneme_eq self other).

(** [Phoneme.contradicts] *)
Definition contradicts (self other : Phoneme) : bool :=
  existsb (fun feature =>
             contains feature (features other)
             && sign_ne (getitem self feature) (getitem other feature))
          (keys (features self)).

(** [Phoneme.contradictsi]: the argument is a bare dictionary, indexed
    directly ([feats[feature]] is only evaluated under [feature in feats]). *)
Definition contradictsi (self : Phoneme) (feats : gmap string bool) : bool :=
  existsb (fun feature =>
             contains feature feats
             && sign_ne (getitem self feature) (feats !! feature))
          (keys (features self)).

(** [Phoneme.update]: [self.features.update(other.features)]; every entry
    of [other] is written into [self], overwriting. *)
Definition update (self other : Phoneme) : Phoneme :=
  mkPhoneme (features other ∪ features self).

(** [Phoneme.updatei] *)
Definition updatei (self : Phoneme) (feats : gmap string bool) : Phoneme :=
  mkPhoneme (feats ∪ features self).

Definition newline : string := String (Ascii.ascii_of_nat 10) EmptyString.

Definition warning_inconsistent : string :=
  String.append "Warning: Inconsistent feature update"%string newline.

(** [Phoneme.edit]: the receiver afterwards, and what was written to the
    error stream. *)
Definition edit (self other : Phoneme) : Phoneme * list string :=
  if contradicts self other then (self, [warning_inconsistent])
  else (update self other, []).

(** [Phoneme.editi] *)
Definition editi (self : Phoneme) (feats : gmap string bool) : Phoneme * list string :=
  if contradictsi self feats then (self, [warning_inconsistent])
  else (updatei self feats, []).

(** [Phoneme.copy] *)
Definition copy (self : Phoneme) : Phoneme := Phoneme_init (features self) ∅ ∅.

(** ** The symbol table *)

(** One iteration of the loop of [p_line_features] / [p_line_new_symbols]:
    bind an unseen symbol to [Phoneme()], then [edit] the stored phoneme. *)
Definition define_symbol (symbol : string) (delta : Phoneme)
    (symbols : gmap string Phoneme) : gmap string Phoneme * list string :=
  let symbols1 :=
    match symbols !! symbol with
    | None => <[symbol := Phoneme_new]> symbols
    | Some _ => symbols
    end in
  match symbols1 !! symbol with
  | Some p => let '(p', err) := edit p delta in (<[symbol := p']> symbols1, err)
  | None => (symbols1, [])
  end.

(** The whole loop, over the symbols named on the line. *)
Fixpoint define_symbols (names : list string) (delta : Phoneme)
    (symbols : gmap string Phoneme) : gmap string Phoneme * list string :=
  match names with
  | [] => (symbols, [])
  | symbol :: rest =>
      let '(symbols1, err1) := define_symbol symbol delta symbols in
      let '(symbols2, err2) := define_symbols rest delta symbols1 in
      (symbols2, err1 ++ err2)
  end.

(** [valid_symbol]: a copy of the stored phoneme, or an error. *)
Definition resolve_symbol (name : string) (symbols : gmap string Phoneme) : option Phoneme :=
  copy <$> symbols !! name.

(** ** The implication store *)

(** A Phoneme object used as a key of [constraints]: the items of its
    feature dictionary in iteration order, every feature once.  The object
    is not changed once it is a key. *)
Record PhonemeObject := mkObject { items : list (string * bool) }.

(** The phoneme that an object stands for. *)
Definition value_of (o : PhonemeObject) : Phoneme :=
  mkPhoneme (list_to_map (items o)).

(** The interpreter's [hash] of a tuple of strings and of a tuple of
    Booleans. *)
Class TupleHash := {
  hash_str_tuple : list string → Z;
  hash_bool_tuple : list bool → Z
}.

(** Rules as the dictionary holds them: key object and consequent, in
    iteration order. *)
Abbreviation Store := (list (PhonemeObject * Phoneme)).

Section dictionary.
Context `{TupleHash}.

(** [Phoneme.__hash__]:
    [hash(tuple(self.features.keys())) ^ hash(tuple(self.features.values()))]. *)
Definition Phoneme_hash (self : PhonemeObject) : Z :=
  Z.lxor (hash_str_tuple ((items self).*1)) (hash_bool_tuple ((items self).*2)).

(** The built-in [hash] of an object: what [__hash__] returns, with -1,
    which the interpreter keeps for errors, replaced by -2. *)
Definition builtin_hash (o : PhonemeObject) : Z :=
  if Z.eqb (Phoneme_hash o) (-1) then (-2)%Z else Phoneme_hash o.

(** Whether the dictionary takes [key] for a stored key: the hashes are
    equal and [stored == key]. *)
Definition same_key (stored key : PhonemeObject) : bool :=
  Z.eqb (builtin_hash stored) (builtin_hash key)
  && Phoneme_eq (value_of stored) (value_of key).

(** [constraints[key]], or [None] for a [KeyError]; also [key in constraints]. *)
Fixpoint store_get (key : PhonemeObject) (constraints : Store) : option Phoneme :=
  match constraints with
  | [] => None
  | (a, c) :: rest => if same_key a key then Some c else store_get key rest
  end.

(** [del constraints[key]] *)
Fixpoint store_del (key : PhonemeObject) (constraints : Store) : Store :=
  match constraints with
  | [] => []
  | (a, c) :: rest =>
      if same_key a key then rest else (a, c) :: store_del key rest
  end.

(** [constraints[key] = value]: the value of a stored key that the
    dictionary takes for [key] is replaced where it stands (the stored key
    object stays), a new key comes last. *)
Fixpoint store_set (key : PhonemeObject) (value : Phoneme) (constraints : Store)
    : Store :=
  match constraints with
  | [] => [(key, value)]
  | (a, c) :: rest =>
      if same_key a key then (a, value) :: rest
      else (a, c) :: store_set key value rest
  end.

(** The [for] loop of [add_constraint] over the keys of
    [constraints.copy()], reading and deleting in the live dictionary.  The
    result is the flag [worthwhile] and the dictionary after the loop. *)
Fixpoint scan (key : PhonemeObject) (value : Phoneme)
    (snapshot : list PhonemeObject) (constraints : Store)
    : option (bool * Store) :=
  match snapshot with
  | [] => Some (true, constraints)
  | antecedent :: rest =>
      match store_get antecedent constraints with
      | None => None
      | Some consequent =>
          if Phoneme_le (value_of antecedent) (value_of key)
             && Phoneme_le value consequent
          then Some (false, constraints)
          else if Phoneme_le (value_of key) (value_of antecedent)
                  && Phoneme_le consequent value
               then scan key value rest (store_del antecedent constraints)
               else scan key value rest constraints
      end
  end.

(** [add_constraint(key, value)]: the dictionary afterwards and the lines
    written to the error stream, or [None] for an uncaught [KeyError]. *)
Definition add_constraint (key : PhonemeObject) (value : Phoneme)
    (constraints : Store) : option (Store * list string) :=
  if negb (contradicts (value_of key) value) then
    match scan key value (constraints.*1) constraints with
    | None => None
    | Some (worthwhile, constraints1) =>
        if worthwhile then
          match store_get key constraints1 with
          | Some consequent =>
              let '(consequent', err) := edit consequent value in
              Some (store_set key consequent' constraints1, err)
          | None => Some (store_set key value constraints1, [])
          end
        else Some (constraints1, [])
    end
  else Some (constraints, []).

(** [p_implication] and [p_converse_implication]; the left side is the key
    of the first and the consequent of the second. *)
Definition p_implication (lhs : PhonemeObject) (rhs : Phoneme)
    (constraints : Store) :=
  add_constraint lhs rhs constraints.

Definition p_converse_implication (lhs : Phoneme) (rhs : PhonemeObject)
    (constraints : Store) :=
  add_constraint rhs lhs constraints.

(** The stores a session can reach, starting from [constraints = {}]. *)
Inductive reachable : Store → Prop :=
  | reachable_empty : reachable []
  | reachable_add s key value s' err :
      reachable s → add_constraint key value s = Some (s', err) → reachable s'.

(** What the dictionary knows of a key: its value and its hash. *)
Definition key_id (o : PhonemeObject) : Phoneme * Z := (value_of o, builtin_hash o).

(** A dictionary holds no two keys of equal hash that compare equal. *)
Definition dict_wf (s : Store) : Prop := NoDup (key_id <$> s.*1).

(** The check that a list of key objects has no two that the dictionary
    would take for the same key. *)
Fixpoint distinct_keys (l : list PhonemeObject) : bool :=
  match l with
  | [] => true
  | a :: rest => forallb (λ b, negb (same_key a b)) rest && distinct_keys rest
  end.

End dictionary.

(** Clause (a) of the scan, for a new rule of antecedent [key] and
    consequent [value]: the stored rule [r] already implies the new one. *)
Definition subsumes (key value : Phoneme) (r : PhonemeObject * Phoneme) : bool :=
  Phoneme_le (value_of r.1) key && Phoneme_le value r.2.

(** Clause (b) of the scan: the new rule makes the stored rule [r] redundant. *)
Definition dominated (key value : Phoneme) (r : PhonemeObject * Phoneme) : bool :=
  Phoneme_le key (value_of r.1) && Phoneme_le r.2 value.

(** No stored rule is dominated by another stored rule: there are no two
    distinct rules [r] and [r'] with [r'] of broader-or-equal condition and
    of conclusion at least as strong. *)
Definition dominance_free (s : Store) : Prop :=
  ∀ r r', r ∈ s → r' ∈ s → r ≠ r' →
          ¬ (Phoneme_le (value_of r'.1) (value_of r.1) = true
             ∧ Phoneme_le r.2 r'.2 = true).

(** A check of [dominance_free] on a list of rules, pair by pair. *)
Definition dominates (r' r : PhonemeObject * Phoneme) : bool :=
  Phoneme_le (value_of r'.1) (value_of r.1) && Phoneme_le r.2 r'.2.

Fixpoint no_dominance (s : Store) : bool :=
  match s with
  | [] => true
  | r :: rest =>
      forallb (λ r', negb (dominates r r') && negb (dominates r' r)) rest
      && no_dominance rest
  end.

(** The loop seen as one pass over the rules themselves; [scan] computes
    this on a dictionary ([scan_sweep] below). *)
Fixpoint sweep (key value : Phoneme) (s : Store) : bool * Store :=
  match s with
  | [] => (true, [])
  | r :: rest =>
      if subsumes key value r then (false, r :: rest)
      else let '(worthwhile, rest') := sweep key value rest in
           if dominated key value r then (worthwhile, rest')
           else (worthwhile, r :: rest')
  end.

(** ** Example phonemes *)

(** Literal phonemes for the examples. *)
Definition ph (l : list (string * bool)) : Phoneme := mkPhoneme (list_to_map l).

Definition P_voice : Phoneme := ph [("voice"%string, true)].
Definition P_voice_minus : Phoneme := ph [("voice"%string, false)].
Definition P_voice_labial : Phoneme :=
  ph [("voice"%string, true); ("labial"%string, true)].
Definition P_voice_coronal : Phoneme :=
  ph [("voice"%string, true); ("coronal"%string, true)].
Definition P_voice_labial_coronal : Phoneme :=
  ph [("voice"%string, true); ("labial"%string, true); ("coronal"%string, true)].
Definition P_nasal : Phoneme := ph [("nasal"%string, true)].
Definition P_sonorant : Phoneme := ph [("sonorant"%string, true)].
Definition P_nasal_sonorant : Phoneme :=
  ph [("nasal"%string, true); ("sonorant"%string, true)].
Definition P_nasal_labial : Phoneme :=
  ph [("nasal"%string, true); ("labial"%string, true)].
Definition P_denasal_labial : Phoneme :=
  ph [("nasal"%string, false); ("labial"%string, true)].

(** Key objects for the examples: the same phonemes, with the order of
    their items.  [K_labial_voice] is [==] to [K_voice_labial]. *)
Definition K_voice : PhonemeObject := mkObject [("voice"%string, true)].
Definition K_voice_labial : PhonemeObject :=
  mkObject [("voice"%string, true); ("labial"%string, true)].
Definition K_labial_voice : PhonemeObject :=
  mkObject [("labial"%string, true); ("voice"%string, true)].
Definition K_voice_coronal : PhonemeObject :=
  mkObject [("voice"%string, true); ("coronal"%string, true)].
Definition K_voice_labial_coronal : PhonemeObject :=
  mkObject [("voice"%string, true); ("labial"%string, true);
            ("coronal"%string, true)].
Definition K_nasal_labial : PhonemeObject :=
  mkObject [("nasal"%string, true); ("labial"%string, true)].

(** A hash for the examples, which tells the orders of a tuple apart.  The
    theorems do not depend on it. *)
Definition example_hash : TupleHash :=
  {| hash_str_tuple l := Z.pos (encode l);
     hash_bool_tuple l := Z.pos (encode l) |}.

(** ** Rendering *)

(** One token of [__str__]: the feature name after ['+'] when [self[key]] is
    true, after ['-'] otherwise. *)
Definition signed_string (self : Phoneme) (key : string) : string :=
  match getitem self key with
  | Some true => String.append "+" key
  | _ => String.append "-" key
  end.

(** [Phoneme.__str__] (and [__repr__], which calls it): the tokens of the
    features in ascending order of the names, joined by spaces, in square
    brackets.  [sorted] is the sort of the names by the order of strings. *)
Definition Phoneme_str (self : Phoneme) : string :=
  String.append "["
    (String.append
       (String.concat " "
          (map (signed_string self) (merge_sort String.le (keys (features self)))))
       "]").

(** Whether a name contains a space. *)
Fixpoint has_space (str : string) : bool :=
  match str with
  | EmptyString => false
  | String c rest => if Ascii.eqb c (Ascii.ascii_of_nat 32) then true else has_space rest
  end.

(** ** Semantic actions of the grammar *)

(** One operand of the nonterminal [features]: a signed feature (the sign
    is [True] when none is written) or a quoted symbol. *)
Inductive operand :=
  | Feature (sign : bool) (name : string)
  | Quoted (name : string).

(** [p_feature_explicit] and [p_feature_default]: [Phoneme({name: sign})]. *)
Definition p_feature (sign : bool) (name : string) : Phoneme :=
  Phoneme_init {[ name := sign ]} ∅ ∅.

(** The value of one operand; [p_phoneme] with [p_valid_symbol] gives a copy
    of the stored phoneme or raises [SyntaxError], here [None]. *)
Definition operand_value (symbols : gmap string Phoneme) (o : operand)
    : option Phoneme :=
  match o with
  | Feature sign name => Some (p_feature sign name)
  | Quoted name => resolve_symbol name symbols
  end.

(** [p_features_recursive], applied to the operands that follow the first:
    [p[1].update(p[2])], from left to right. *)
Fixpoint p_features_recursive (symbols : gmap string Phoneme) (acc : Phoneme)
    (rest : list operand) : option Phoneme :=
  match rest with
  | [] => Some acc
  | o :: rest' =>
      match operand_value symbols o with
      | None => None
      | Some v => p_features_recursive symbols (update acc v) rest'
      end
  end.

(** The value of the nonterminal [features]: [p_features_base] for the
    first operand, then [p_features_recursive]. *)
Definition p_features (symbols : gmap string Phoneme) (first : operand)
    (rest : list operand) : option Phoneme :=
  match operand_value symbols first with
  | None => None
  | Some v => p_features_recursive symbols v rest
  end.

(** The phoneme built by the nonterminal [features_or_new_symbols] (the
    first component of its value): [Phoneme({first: sign})] for the base
    rules, then [updatei({name: True})] for every further name. *)
Definition p_features_or_new_symbols (sign : bool) (first : string)
    (rest : list string) : Phoneme :=
  foldl (λ acc name, updatei acc {[ name := true ]})
        (Phoneme_init {[ first := sign ]} ∅ ∅) rest.

(** ** Alphabets ([Features.py]) *)

(** The class [Alphabet]: a dictionary from symbols to phonemes, the
    dictionary back from phonemes to symbols, and a placeholder.  The
    phonemes are any values usable as dictionary keys. *)
Section alphabet.
Context {P : Type} `{Countable P}.

Record Alphabet := mkAlphabet {
  symbols : gmap string P;
  phonemes : gmap P string;
  placeholder : string
}.

(** [Alphabet.__init__]: [dict([[ph, s] for s, ph in symbols.items()])]
    enters the pairs one after the other, a later pair replacing an
    earlier one with the same phoneme. *)
Definition Alphabet_init (syms : gmap string P) (ph : string) : Alphabet :=
  mkAlphabet syms
             (foldl (λ m sp, <[snd sp := fst sp]> m) ∅ (map_to_list syms))
             ph.

(** [Alphabet.__getitem__]; [None] for a [KeyError]. *)
Definition Alphabet_getitem (self : Alphabet) (key : string) : option P :=
  symbols self !! key.

(** [Alphabet.contains_symbol] *)
Definition contains_symbol (self : Alphabet) (symbol : string) : bool :=
  match symbols self !! symbol with Some _ => true | None => false end.

(** [Alphabet.contains_feature]: [feature in self.symbols.values()]. *)
Definition contains_feature (self : Alphabet) (feature : P) : bool :=
  bool_decide (feature ∈ (map_to_list (symbols self)).*2).

(** [Alphabet.update] *)
Definition Alphabet_update (self : Alphabet) (symbol : string) (phoneme : P)
    : Alphabet :=
  mkAlphabet (<[symbol := phoneme]> (symbols self))
             (<[phoneme := symbol]> (phonemes self))
             (placeholder self).

(** [Alphabet.parse]: one phoneme for every character, or [None] where the
    code raises [StandardError]. *)
Fixpoint parse (self : Alphabet) (str : string) : option (list P) :=
  match str with
  | EmptyString => Some []
  | String char rest =>
      match symbols self !! String char EmptyString with
      | Some phm =>
          match parse self rest with
          | Some feats => Some (phm :: feats)
          | None => None
          end
      | None => None
      end
  end.

(** [Alphabet.symbolize] *)
Definition symbolize (self : Alphabet) (phms : list P) : string :=
  String.concat ""
    (map (λ phm, match phonemes self !! phm with
                 | Some s => s
                 | None => placeholder self
                 end) phms).

(** The dictionary [phonemes] sends the phoneme of every symbol back to
    that symbol. *)
Definition reverse_consistent (self : Alphabet) : Prop :=
  ∀ symbol phm, symbols self !! symbol = Some phm →
                phonemes self !! phm = Some symbol.

End alphabet.

Arguments Alphabet P {_ _}.

(** ** Facts about the feature algebra *)

Section phoneme_facts.
Implicit Types (A B C P Q self other : Phoneme) (d : gmap string bool).

Lemma Phoneme_ext P Q : features P = features Q → P = Q.
Proof. destruct P, Q; simpl; congruence. Qed.

Lemma elem_of_keys d feature : In feature (keys d) ↔ is_Some (d !! feature).
Proof.
  unfold keys. rewrite <- list_elem_of_In, list_elem_of_fmap. split.
  - intros [[k s] [-> Hin]]. apply elem_of_map_to_list in Hin. eauto.
  - intros [s Hs]. exists (feature, s). split; [done|].
    by apply elem_of_map_to_list.
Qed.

Lemma contains_true feature d : contains feature d = true ↔ is_Some (d !! feature).
Proof.
  unfold contains. rewrite <- not_eq_None_Some.
  destruct (d !! feature); split; intros H; congruence.
Qed.

Lemma sign_ne_false x y : sign_ne x y = false ↔ x = y.
Proof.
  unfold sign_ne. rewrite negb_false_iff, bool_decide_eq_true. done.
Qed.

Lemma sign_ne_true x y : sign_ne x y = true ↔ x ≠ y.
Proof.
  unfold sign_ne. rewrite negb_true_iff, bool_decide_eq_false. done.
Qed.

(** The loop of [issubset] decides inclusion of the feature maps. *)
Lemma issubset_spec A B :
  issubset A B = true ↔
  ∀ feature s, features A !! feature = Some s → features B !! feature = Some s.
Proof.
  unfold issubset, getitem. rewrite forallb_forall. split.
  - intros H feature s Hs.
    specialize (H feature (proj2 (elem_of_keys _ _) (ex_intro _ s Hs))).
    destruct (contains feature (features B)) eqn:Hc; [|done].
    apply negb_true_iff, sign_ne_false in H. congruence.
  - intros H feature Hin. apply elem_of_keys in Hin as [s Hs].
    pose proof (H _ _ Hs) as HB.
    assert (contains feature (features B) = true) as ->
      by (apply contains_true; eauto).
    apply negb_true_iff, sign_ne_false. congruence.
Qed.

Lemma issubset_map_subseteq A B : issubset A B = true ↔ features A ⊆ features B.
Proof. rewrite issubset_spec, map_subseteq_spec. done. Qed.

Lemma issubset_refl A : issubset A A = true.
Proof. by apply issubset_spec. Qed.

Lemma issubset_trans A B C :
  issubset A B = true → issubset B C = true → issubset A C = true.
Proof. rewrite !issubset_spec. eauto. Qed.

(** [__eq__] holds exactly of phonemes with the same features and signs. *)
Lemma Phoneme_eq_spec A B : Phoneme_eq A B = true ↔ A = B.
Proof.
  unfold Phoneme_eq, Phoneme_le. split.
  - destruct (Nat.eqb_spec (size (features A)) (size (features B))) as [Hsz|];
      simpl; [|done].
    intros Hle. apply Phoneme_ext, map_subseteq_size_eq.
    + by apply issubset_map_subseteq.
    + lia.
  - intros ->. rewrite Nat.eqb_refl. simpl. apply issubset_refl.
Qed.

Lemma Phoneme_eq_refl A : Phoneme_eq A A = true.
Proof. by apply Phoneme_eq_spec. Qed.

Lemma Phoneme_eq_false A B : Phoneme_eq A B = false ↔ A ≠ B.
Proof.
  rewrite <- Phoneme_eq_spec. destruct (Phoneme_eq A B); split; congruence.
Qed.

Lemma issubset_antisym A B :
  issubset A B = true → issubset B A = true → A = B.
Proof.
  rewrite !issubset_map_subseteq. intros H1 H2.
  apply Phoneme_ext. by apply (anti_symm (⊆)).
Qed.

(** The loop of [contradicts] finds a feature signed both ways. *)
Lemma contradicts_spec A B :
  contradicts A B = true ↔
  ∃ feature s, features A !! feature = Some s
               ∧ features B !! feature = Some (negb s).
Proof.
  unfold contradicts, getitem. rewrite existsb_exists. split.
  - intros (feature & Hin & H). apply andb_true_iff in H as [Hc Hne].
    apply elem_of_keys in Hin as [s Hs]. apply contains_true in Hc as [t Ht].
    apply sign_ne_true in Hne. exists feature, s. split; [done|].
    rewrite Ht. f_equal. destruct s, t; simpl; congruence.
  - intros (feature & s & Hs & Ht). exists feature. split.
    + apply elem_of_keys. eauto.
    + apply andb_true_iff. split; [apply contains_true; eauto|].
      apply sign_ne_true. rewrite Hs, Ht. destruct s; simpl; congruence.
Qed.

Lemma contradicts_false A B :
  contradicts A B = false ↔
  ∀ feature s t, features A !! feature = Some s →
                 features B !! feature = Some t → s = t.
Proof.
  split.
  - intros H feature s t Hs Ht. destruct (decide (s = t)) as [|Hne]; [done|].
    assert (contradicts A B = true); [|congruence].
    apply contradicts_spec. exists feature, s. split; [done|].
    rewrite Ht. f_equal. destruct s, t; simpl; congruence.
  - intros H. destruct (contradicts A B) eqn:Hc; [|done].
    apply contradicts_spec in Hc as (feature & s & Hs & Ht).
    specialize (H _ _ _ Hs Ht). by destruct s.
Qed.

Lemma contradicts_sym A B : contradicts A B = contradicts B A.
Proof.
  apply eq_true_iff_eq. rewrite !contradicts_spec.
  split; intros (feature & s & Hs & Ht); exists feature, (negb s);
    rewrite negb_involutive; done.
Qed.

Lemma lookup_update A B feature :
  features (update A B) !! feature =
  match features B !! feature with
  | Some s => Some s
  | None => features A !! feature
  end.
Proof.
  unfold update; simpl. rewrite lookup_union.
  destruct (features B !! feature), (features A !! feature); done.
Qed.

(** Without a contradiction, [update] is an upper bound of both sides. *)
Lemma issubset_update_l A B :
  contradicts A B = false → issubset A (update A B) = true.
Proof.
  intros Hc. apply issubset_spec. intros feature s Hs. rewrite lookup_update.
  destruct (features B !! feature) as [t|] eqn:Ht; [|done].
  f_equal. symmetry. eapply contradicts_false; eauto.
Qed.

Lemma issubset_update_r A B : issubset B (update A B) = true.
Proof.
  apply issubset_spec. intros feature s Hs. by rewrite lookup_update, Hs.
Qed.

Lemma update_least A B C :
  issubset A C = true → issubset B C = true → issubset (update A B) C = true.
Proof.
  rewrite !issubset_spec. intros HA HB feature s. rewrite lookup_update.
  destruct (features B !! feature) eqn:Ht; eauto. intros [= <-]. eauto.
Qed.

Lemma contradicts_update K C V :
  contradicts K C = false → contradicts K V = false →
  contradicts K (update C V) = false.
Proof.
  rewrite !contradicts_false. intros HC HV feature s t Hs.
  rewrite lookup_update. destruct (features V !! feature) eqn:Ht.
  - intros [= <-]. eauto.
  - eauto.
Qed.

Lemma Phoneme_new_empty : features Phoneme_new = ∅.
Proof. reflexivity. Qed.

Lemma contradicts_new B : contradicts Phoneme_new B = false.
Proof. apply contradicts_false. intros feature s t. by rewrite Phoneme_new_empty. Qed.

End phoneme_facts.


(** ** Facts about the dictionary operations *)

Arguments Phoneme_eq : simpl never.
Arguments Phoneme_le : simpl never.
Arguments issubset : simpl never.
Arguments contradicts : simpl never.
Arguments update : simpl never.
Arguments same_key : simpl never.
Arguments value_of : simpl never.
Arguments builtin_hash : simpl never.

Section store_facts.
Context `{TupleHash}.
Implicit Types (s pre rest : Store) (k a : PhonemeObject) (v c x : Phoneme)
  (r : PhonemeObject * Phoneme).

Lemma same_key_spec a k : same_key a k = true ↔ key_id a = key_id k.
Proof.
  unfold same_key, key_id.
  rewrite andb_true_iff, Z.eqb_eq, Phoneme_eq_spec. split.
  - intros [Eh Ev]. by rewrite Eh, Ev.
  - intros E. split; [exact (f_equal snd E) | exact (f_equal fst E)].
Qed.

Lemma same_key_false a k : same_key a k = false ↔ key_id a ≠ key_id k.
Proof.
  rewrite <- same_key_spec. destruct (same_key a k); split; congruence.
Qed.

Lemma same_key_refl a : same_key a a = true.
Proof. by apply same_key_spec. Qed.

Lemma same_key_ext a k k' : key_id k = key_id k' → same_key a k = same_key a k'.
Proof.
  intros E. apply eq_true_iff_eq. rewrite !same_key_spec. by rewrite E.
Qed.

Lemma store_get_ext k k' s : key_id k = key_id k' → store_get k s = store_get k' s.
Proof.
  intros E. induction s as [|[a c] s IH]; simpl; [done|].
  by rewrite (same_key_ext a k k' E), IH.
Qed.

Lemma store_set_ext_elem k x s :
  ∀ r, r ∈ store_set k x s → r ∈ s ∨ (key_id r.1 = key_id k ∧ r.2 = x).
Proof.
  induction s as [|[a c] s IH]; simpl; intros r.
  - intros ->%list_elem_of_singleton. by right.
  - destruct (same_key a k) eqn:E.
    + apply same_key_spec in E.
      rewrite !elem_of_cons. intros [->|Hr]; [by right | by left; right].
    + rewrite !elem_of_cons. intros [->|Hr]; [by left; left|].
      destruct (IH _ Hr) as [?|?]; [by left; right | by right].
Qed.

Lemma store_get_Some k c s :
  store_get k s = Some c → ∃ a, (a, c) ∈ s ∧ key_id a = key_id k.
Proof.
  induction s as [|[a c'] s IH]; simpl; [done|].
  destruct (same_key a k) eqn:E.
  - apply same_key_spec in E. intros [= ->]. exists a. split; [left | done].
  - intros Hget. destruct (IH Hget) as (a' & Hin & Hid).
    exists a'. split; [by right | done].
Qed.

Lemma store_get_None k s :
  store_get k s = None ↔ key_id k ∉ key_id <$> s.*1.
Proof.
  induction s as [|[a c'] s IH]; simpl.
  - split; [intros _; apply not_elem_of_nil | done].
  - rewrite not_elem_of_cons. destruct (same_key a k) eqn:E.
    + apply same_key_spec in E. split; [done|]. intros [Hne _]. by destruct Hne.
    + apply same_key_false in E. rewrite IH. split.
      * intros Hnotin. split; [congruence | done].
      * by intros [_ Hnotin].
Qed.

Lemma store_get_elem a c s : dict_wf s → (a, c) ∈ s → store_get a s = Some c.
Proof.
  unfold dict_wf. induction s as [|[a' c'] s IH]; simpl; intros Hnd Hin.
  - by apply elem_of_nil in Hin.
  - apply NoDup_cons in Hnd as [Hnotin Hnd].
    apply elem_of_cons in Hin as [[= <- <-]|Hin].
    + by rewrite same_key_refl.
    + destruct (same_key a' a) eqn:E; [|by apply IH].
      apply same_key_spec in E. exfalso. apply Hnotin. rewrite E.
      apply list_elem_of_fmap_2, list_elem_of_fmap. by exists (a, c).
Qed.

Lemma store_get_match a k c s :
  dict_wf s → (a, c) ∈ s → key_id a = key_id k → store_get k s = Some c.
Proof.
  intros Hwf Hin E. rewrite <- (store_get_ext a k s E). by apply store_get_elem.
Qed.

Lemma store_get_app_notin k pre s :
  key_id k ∉ key_id <$> pre.*1 → store_get k (pre ++ s) = store_get k s.
Proof.
  induction pre as [|[a c'] pre IH]; simpl; [done|].
  rewrite not_elem_of_cons. intros [Hne Hnotin].
  destruct (same_key a k) eqn:E; [|auto].
  apply same_key_spec in E. by destruct Hne.
Qed.

Lemma store_del_app_notin k c pre rest :
  key_id k ∉ key_id <$> pre.*1 →
  store_del k (pre ++ (k, c) :: rest) = pre ++ rest.
Proof.
  induction pre as [|[a c'] pre IH]; simpl.
  - intros _. by rewrite same_key_refl.
  - rewrite not_elem_of_cons. intros [Hne Hnotin].
    destruct (same_key a k) eqn:E.
    + apply same_key_spec in E. by destruct Hne.
    + by rewrite IH.
Qed.

Lemma store_set_absent k x s : store_get k s = None → store_set k x s = s ++ [(k, x)].
Proof.
  induction s as [|[a c'] s IH]; simpl; [done|].
  destruct (same_key a k); [done|]. intros Hget. by rewrite IH.
Qed.

Lemma store_set_present k c s :
  store_get k s = Some c →
  ∃ l1 a l2, s = l1 ++ (a, c) :: l2
             ∧ key_id a = key_id k
             ∧ ∀ x, store_set k x s = l1 ++ (a, x) :: l2.
Proof.
  induction s as [|[a c'] s IH]; simpl; [done|].
  destruct (same_key a k) eqn:E.
  - apply same_key_spec in E. intros [= ->]. by exists [], a, s.
  - intros Hget. destruct (IH Hget) as (l1 & a' & l2 & -> & Hid & Hset).
    exists ((a, c') :: l1), a', l2. split; [done|]. split; [done|].
    intros x; simpl. by rewrite Hset.
Qed.

Lemma store_set_same k c s : store_get k s = Some c → store_set k c s = s.
Proof.
  intros Hget.
  destruct (store_set_present _ _ _ Hget) as (l1 & a & l2 & Hs & _ & Hset).
  by rewrite Hset, <- Hs.
Qed.

Lemma store_set_wf k x s : dict_wf s → dict_wf (store_set k x s).
Proof.
  unfold dict_wf. intros Hnd. destruct (store_get k s) as [c|] eqn:Hget.
  - destruct (store_set_present _ _ _ Hget) as (l1 & a & l2 & Hs & _ & Hset).
    rewrite Hset. rewrite Hs in Hnd. by rewrite !fmap_app, !fmap_cons in *.
  - rewrite (store_set_absent _ _ _ Hget), !fmap_app. simpl.
    apply NoDup_app. split; [done|]. split.
    + intros y Hy. apply store_get_None in Hget.
      rewrite list_elem_of_singleton. intros ->. done.
    + apply NoDup_singleton.
Qed.

Lemma elem_of_store_set_other r k x s :
  r ∈ s → key_id r.1 ≠ key_id k → r ∈ store_set k x s.
Proof.
  intros Hr Hne. destruct (store_get k s) as [c|] eqn:Hget.
  - destruct (store_set_present _ _ _ Hget) as (l1 & a & l2 & Hs & Hid & Hset).
    rewrite Hset. rewrite Hs in Hr. revert Hr.
    rewrite !elem_of_app, !elem_of_cons. intros [?|[->|?]]; auto.
    by destruct Hne.
  - rewrite (store_set_absent _ _ _ Hget), elem_of_app. by left.
Qed.

Lemma elem_of_store_set_key k x s :
  ∃ a, (a, x) ∈ store_set k x s ∧ key_id a = key_id k.
Proof.
  destruct (store_get k s) as [c|] eqn:Hget.
  - destruct (store_set_present _ _ _ Hget) as (l1 & a & l2 & _ & Hid & Hset).
    exists a. split; [|done]. rewrite Hset, elem_of_app. right. left.
  - exists k. split; [|done].
    rewrite (store_set_absent _ _ _ Hget), elem_of_app. right. left.
Qed.

Lemma dict_wf_sublist s s' : s' `sublist_of` s → dict_wf s → dict_wf s'.
Proof.
  unfold dict_wf. intros Hsub Hnd. eapply sublist_NoDup; [done|].
  by do 2 apply fmap_sublist.
Qed.

Lemma key_id_value a k : key_id a = key_id k → value_of a = value_of k.
Proof. intros E. exact (f_equal fst E). Qed.

End store_facts.

(** ** The scan *)

Section sweep_facts.
Implicit Types (s cs : Store) (k v : Phoneme) (r : PhonemeObject * Phoneme).

Lemma sweep_sublist k v s : snd (sweep k v s) `sublist_of` s.
Proof.
  induction s as [|r s IH]; simpl; [done|].
  destruct (subsumes k v r); [done|].
  destruct (sweep k v s) as [w s']. simpl in *.
  destruct (dominated k v r); by constructor.
Qed.

(** A pass that is not cut short keeps exactly the rules that the new rule
    does not dominate, and has met no rule that subsumes the new one. *)
Lemma sweep_worthwhile k v s cs :
  sweep k v s = (true, cs) →
  (∀ r, r ∈ s → subsumes k v r = false)
  ∧ (∀ r, r ∈ cs ↔ r ∈ s ∧ dominated k v r = false).
Proof.
  revert cs. induction s as [|r0 s IH]; simpl; intros cs.
  - intros [= <-]. split; intros r; rewrite ?elem_of_nil; tauto.
  - destruct (subsumes k v r0) eqn:Ha; [done|].
    destruct (sweep k v s) as [w s']. intros Hs.
    assert (w = true) as -> by (destruct (dominated k v r0); congruence).
    destruct (IH s' eq_refl) as [IH1 IH2].
    destruct (dominated k v r0) eqn:Hb; injection Hs as <-; split; intros r.
    + rewrite elem_of_cons. intros [->|Hin]; auto.
    + rewrite IH2, elem_of_cons. split; [tauto|].
      intros [[->|Hin] Hd]; [congruence | done].
    + rewrite elem_of_cons. intros [->|Hin]; auto.
    + rewrite !elem_of_cons, IH2. split; [|tauto].
      intros [->|[Hin Hd]]; auto.
Qed.



Lemma sweep_result_clean k v s cs :
  sweep k v s = (true, cs) →
  Forall (λ r, subsumes k v r = false ∧ dominated k v r = false) cs.
Proof.
  intros Hs. destruct (sweep_worthwhile _ _ _ _ Hs) as [Ha Hb].
  apply Forall_forall. intros r Hr. apply Hb in Hr as [Hin Hd]. auto.
Qed.

Lemma sweep_no_subsumer k v s :
  (∀ r, r ∈ s → subsumes k v r = false) → fst (sweep k v s) = true.
Proof.
  induction s as [|r s IH]; simpl; intros Hs; [done|].
  rewrite (Hs r) by left. destruct (sweep k v s) as [w s']. simpl in IH.
  rewrite IH by (intros r' Hr'; apply Hs; by right).
  by destruct (dominated k v r).
Qed.


(** A pass that is cut short leaves a rule that subsumes the new one. *)
Lemma sweep_aborted_has_subsumer k v s cs :
  sweep k v s = (false, cs) → ∃ r, r ∈ cs ∧ subsumes k v r = true.
Proof.
  revert cs. induction s as [|r0 s IH]; simpl; intros cs; [done|].
  destruct (subsumes k v r0) eqn:Ha.
  - intros [= <-]. exists r0. split; [left | done].
  - destruct (sweep k v s) as [w s']. intros Hs.
    assert (w = false) as -> by (destruct (dominated k v r0); congruence).
    destruct (IH s' eq_refl) as (r & Hr & Hsub).
    exists r. split; [|done].
    destruct (dominated k v r0); injection Hs as <-; [done | by right].
Qed.

(** Whatever the outcome of the pass, a rule that is gone was dominated by
    the new rule. *)
Lemma sweep_keeps_or_dominated k v s r :
  r ∈ s → r ∈ snd (sweep k v s) ∨ dominated k v r = true.
Proof.
  induction s as [|r0 s IH]; simpl; intros Hr; [by apply elem_of_nil in Hr|].
  destruct (subsumes k v r0); [by left|].
  destruct (sweep k v s) as [w s']. simpl in IH.
  apply elem_of_cons in Hr as [->|Hr].
  - destruct (dominated k v r0) eqn:Hd; [by right | left; simpl; left].
  - destruct (IH Hr) as [Hin|Hd]; [|by right].
    left. destruct (dominated k v r0); simpl; [done | by right].
Qed.

Lemma dominance_free_sublist s s' :
  s' `sublist_of` s → dominance_free s → dominance_free s'.
Proof.
  intros Hsub Hfree r r' Hr Hr'. apply Hfree; eapply elem_of_sublist; eauto.
Qed.

Lemma dominance_free_nil : dominance_free [].
Proof. intros r r' Hr. by apply elem_of_nil in Hr. Qed.


End sweep_facts.

Section scan_facts.
Context `{TupleHash}.
Implicit Types (s pre rest cs : Store) (k a : PhonemeObject) (v c x : Phoneme)
  (r : PhonemeObject * Phoneme).

Lemma scan_sweep_from k v rest :
  ∀ pre, dict_wf (pre ++ rest) →
         scan k v (rest.*1) (pre ++ rest)
         = Some (fst (sweep (value_of k) v rest),
                 pre ++ snd (sweep (value_of k) v rest)).
Proof.
  unfold dict_wf.
  induction rest as [|[a c] rest IH]; intros pre Hnd; simpl.
  - by rewrite app_nil_r.
  - assert ((key_id a ∉ key_id <$> pre.*1)
            ∧ NoDup (key_id <$> (pre ++ rest).*1)) as [Hpre Hnd'].
    { rewrite !fmap_app, !fmap_cons in Hnd. simpl in Hnd.
      apply NoDup_app in Hnd as (Hnd1 & Hdisj & Hnd2).
      apply NoDup_cons in Hnd2 as [Hnotin Hnd2]. split.
      - intros Hin. apply (Hdisj _ Hin). left.
      - rewrite !fmap_app. apply NoDup_app. split; [done|]. split; [|done].
        intros y Hy Hy'. apply (Hdisj _ Hy). by right. }
    rewrite store_get_app_notin by done. simpl. rewrite same_key_refl.
    unfold subsumes, dominated. simpl.
    destruct (Phoneme_le (value_of a) (value_of k) && Phoneme_le v c); [done|].
    destruct (Phoneme_le (value_of k) (value_of a) && Phoneme_le c v).
    + rewrite store_del_app_notin by done. rewrite IH by done.
      by destruct (sweep (value_of k) v rest).
    + rewrite (cons_middle (a, c) pre rest), app_assoc. rewrite IH.
      * destruct (sweep (value_of k) v rest). simpl. by rewrite <- app_assoc.
      * by rewrite <- app_assoc.
Qed.

(** On a dictionary the loop of [add_constraint] never raises and computes
    [sweep]. *)
Lemma scan_sweep k v s :
  dict_wf s → scan k v (s.*1) s = Some (sweep (value_of k) v s).
Proof.
  intros Hnd. pose proof (scan_sweep_from k v s [] Hnd) as Hs.
  simpl in Hs. rewrite Hs. by destruct (sweep (value_of k) v s).
Qed.

Lemma sweep_wf kv v s : dict_wf s → dict_wf (snd (sweep kv v s)).
Proof. apply dict_wf_sublist, sweep_sublist. Qed.

Lemma add_constraint_sweep k v s :
  dict_wf s →
  add_constraint k v s =
  if contradicts (value_of k) v then Some (s, [])
  else match sweep (value_of k) v s with
       | (true, cs) =>
           match store_get k cs with
           | Some c => Some (store_set k (fst (edit c v)) cs, snd (edit c v))
           | None => Some (store_set k v cs, [])
           end
       | (false, cs) => Some (cs, [])
       end.
Proof.
  intros Hnd. unfold add_constraint.
  destruct (contradicts (value_of k) v); simpl; [done|].
  rewrite scan_sweep by done.
  destruct (sweep (value_of k) v s) as [[] cs]; [|done].
  destruct (store_get k cs) as [c|]; [|done]. by destruct (edit c v).
Qed.

Lemma add_constraint_wf k v s s' err :
  dict_wf s → add_constraint k v s = Some (s', err) → dict_wf s'.
Proof.
  intros Hnd. rewrite add_constraint_sweep by done.
  destruct (contradicts (value_of k) v); [by intros [= <- _]|].
  pose proof (sweep_wf (value_of k) v s Hnd) as Hcs.
  destruct (sweep (value_of k) v s) as [[] cs]; simpl in Hcs;
    [|by intros [= <- _]].
  destruct (store_get k cs); intros [= <- _]; by apply store_set_wf.
Qed.

Lemma reachable_wf s : reachable s → dict_wf s.
Proof.
  induction 1 as [|s k v s' err _ IH Hadd]; [constructor|].
  eapply add_constraint_wf; eauto.
Qed.

(** Invariant (a) of the store: a stored antecedent never contradicts its
    consequent. *)
Lemma add_constraint_consistent k v s s' err :
  dict_wf s →
  (∀ r, r ∈ s → contradicts (value_of r.1) r.2 = false) →
  add_constraint k v s = Some (s', err) →
  ∀ r, r ∈ s' → contradicts (value_of r.1) r.2 = false.
Proof.
  intros Hnd Hinv. rewrite add_constraint_sweep by done.
  destruct (contradicts (value_of k) v) eqn:Hkv; [by intros [= <- _]|].
  pose proof (sweep_sublist (value_of k) v s) as Hsub.
  destruct (sweep (value_of k) v s) as [[] cs]; simpl in Hsub.
  - assert (∀ r, r ∈ cs → contradicts (value_of r.1) r.2 = false) as Hcs.
    { intros r Hr. apply Hinv. eapply elem_of_sublist; eauto. }
    destruct (store_get k cs) as [c|] eqn:Hget; intros [= <- _] r Hr;
      apply store_set_ext_elem in Hr as [Hr|[Hid ->]]; auto.
    + apply key_id_value in Hid. rewrite Hid. unfold edit.
      destruct (store_get_Some _ _ _ Hget) as (a & Hin & Ha).
      apply Hcs in Hin. simpl in Hin. rewrite (key_id_value _ _ Ha) in Hin.
      destruct (contradicts c v); simpl; [done|].
      by apply contradicts_update.
    + apply key_id_value in Hid. by rewrite Hid.
  - intros [= <- _] r Hr. apply Hinv. eapply elem_of_sublist; eauto.
Qed.

Lemma reachable_consistent s :
  reachable s → ∀ r, r ∈ s → contradicts (value_of r.1) r.2 = false.
Proof.
  induction 1 as [|s k v s' err Hs IH Hadd].
  - intros r Hr. by apply elem_of_nil in Hr.
  - eapply add_constraint_consistent; eauto using reachable_wf.
Qed.




(** ** Looking up an antecedent that is not stored *)

Lemma store_get_None_sublist k s s' :
  s' `sublist_of` s → store_get k s = None → store_get k s' = None.
Proof.
  intros Hsub. rewrite !store_get_None. intros Hn Hin. apply Hn.
  eapply elem_of_sublist; [exact Hin|]. by do 2 apply fmap_sublist.
Qed.

Lemma store_get_None_values k (s : Store) :
  (∀ r, r ∈ s → Phoneme_eq (value_of r.1) (value_of k) = false) →
  store_get k s = None.
Proof.
  intros Hmiss. apply store_get_None.
  intros (a & Hid & Ha)%list_elem_of_fmap.
  apply list_elem_of_fmap in Ha as (r & -> & Hr).
  apply Hmiss in Hr. rewrite <- (key_id_value _ _ Hid) in Hr.
  by rewrite Phoneme_eq_refl in Hr.
Qed.

Lemma dict_wf_cons a c (s : Store) :
  (∀ r, r ∈ s → Phoneme_eq (value_of r.1) (value_of a) = false) →
  dict_wf s → dict_wf ((a, c) :: s).
Proof.
  intros Hmiss Hwf. unfold dict_wf. simpl. apply NoDup_cons. split; [|done].
  by apply store_get_None, store_get_None_values.
Qed.

(** When the scan runs to its end and the lookup of line 414 misses, the
    rule is appended to what the scan left. *)
Lemma add_constraint_fresh k v s :
  dict_wf s → contradicts (value_of k) v = false →
  fst (sweep (value_of k) v s) = true →
  store_get k s = None →
  add_constraint k v s = Some (snd (sweep (value_of k) v s) ++ [(k, v)], []).
Proof.
  intros Hwf Hkv Hw Hnone. rewrite add_constraint_sweep, Hkv by done.
  pose proof (sweep_sublist (value_of k) v s) as Hsub.
  destruct (sweep (value_of k) v s) as [w cs]. simpl in *. subst w.
  by rewrite (store_get_None_sublist _ _ _ Hsub Hnone), store_set_absent
    by (by eapply store_get_None_sublist).
Qed.

End scan_facts.

(** Discharge a disequality of two literal phonemes by running [__eq__]. *)
Ltac phoneme_neq :=
  let E := fresh "E" in
  intros E; apply Phoneme_eq_spec in E; vm_compute in E; discriminate E.

Lemma forallb_elem_of {X} (f : X → bool) (l : list X) :
  forallb f l = true → ∀ x, x ∈ l → f x = true.
Proof.
  intros Hall x Hx. apply list_elem_of_In in Hx. revert x Hx.
  by apply forallb_forall.
Qed.

Lemma values_differ (kv : Phoneme) (s : Store) :
  forallb (λ r, negb (Phoneme_eq (value_of r.1) kv)) s = true →
  ∀ r, r ∈ s → Phoneme_eq (value_of r.1) kv = false.
Proof.
  intros Hall r Hr. apply negb_true_iff.
  exact (forallb_elem_of _ _ Hall r Hr).
Qed.

Lemma copy_eq (p : Phoneme) : copy p = p.
Proof.
  apply Phoneme_ext. unfold copy, Phoneme_init; simpl.
  rewrite !gset_to_gmap_empty. by rewrite !(left_id_L ∅ (∪)).
Qed.

Section wf_check.
Context `{TupleHash}.

Lemma distinct_keys_NoDup (l : list PhonemeObject) :
  distinct_keys l = true → NoDup (key_id <$> l).
Proof.
  induction l as [|a l IH]; simpl; [constructor|].
  intros [Ha Hl]%andb_true_iff. apply NoDup_cons. split; [|by apply IH].
  intros (b & Hid & Hb)%list_elem_of_fmap.
  pose proof (forallb_elem_of _ _ Ha b Hb) as Hne. simpl in Hne.
  apply negb_true_iff, same_key_false in Hne. done.
Qed.

Lemma distinct_keys_wf (s : Store) : distinct_keys (s.*1) = true → dict_wf s.
Proof. apply distinct_keys_NoDup. Qed.

End wf_check.

Lemma no_dominance_free (s : Store) : no_dominance s = true → dominance_free s.
Proof.
  induction s as [|r0 s IH]; simpl.
  - intros _. apply dominance_free_nil.
  - intros [Hr0 Hs]%andb_true_iff r r' Hr Hr' Hne [H1 H2].
    assert (dominates r' r = true) as Hd
      by (unfold dominates; by rewrite H1, H2).
    apply elem_of_cons in Hr as [->|Hr]; apply elem_of_cons in Hr' as [->|Hr'].
    + done.
    + pose proof (forallb_elem_of _ _ Hr0 r' Hr') as Hc. simpl in Hc.
      rewrite Hd in Hc. by rewrite andb_false_r in Hc.
    + pose proof (forallb_elem_of _ _ Hr0 r Hr) as Hc. simpl in Hc.
      by rewrite Hd in Hc.
    + exact (IH Hs r r' Hr Hr' Hne (conj H1 H2)).
Qed.
(** ** The feature algebra: claims *)

(** C7. The relation [<=] on phonemes holds exactly when every feature of
    the left phoneme occurs in the right one with the same sign, and it is
    a partial order: reflexive, antisymmetric up to [==], transitive. *)
Theorem Phoneme_le_partial_order :
  (∀ A B, Phoneme_le A B = true ↔
          ∀ feature s, getitem A feature = Some s → getitem B feature = Some s)
  ∧ (∀ A, Phoneme_le A A = true)
  ∧ (∀ A B, Phoneme_le A B = true → Phoneme_le B A = true → Phoneme_eq A B = true)
  ∧ (∀ A B C, Phoneme_le A B = true → Phoneme_le B C = true → Phoneme_le A C = true).
Proof.
  unfold Phoneme_le. repeat split.
  - by apply issubset_spec.
  - by apply issubset_spec.
  - apply issubset_refl.
  - intros A B HAB HBA. apply Phoneme_eq_spec. by apply issubset_antisym.
  - apply issubset_trans.
Qed.

Lemma Phoneme_le_partial_order_witness :
  Phoneme_le P_voice P_voice_labial = true
  ∧ Phoneme_le P_voice_labial P_voice_labial_coronal = true
  ∧ Phoneme_le P_voice P_voice_labial_coronal = true.
Proof.
  assert (Phoneme_le P_voice P_voice_labial = true) as H1
    by (vm_compute; reflexivity).
  assert (Phoneme_le P_voice_labial P_voice_labial_coronal = true) as H2
    by (vm_compute; reflexivity).
  split; [exact H1|]. split; [exact H2|].
  exact (proj2 (proj2 (proj2 Phoneme_le_partial_order)) _ _ _ H1 H2).
Defined.

(** C8. [A.contradicts(B)] is true exactly when some feature carries
    opposite signs in [A] and [B], and [contradicts] is symmetric. *)
Theorem contradicts_opposite_signs_symmetric (A B : Phoneme) :
  (contradicts A B = true ↔
   ∃ feature s, getitem A feature = Some s ∧ getitem B feature = Some (negb s))
  ∧ contradicts A B = contradicts B A.
Proof. split; [apply contradicts_spec | apply contradicts_sym]. Qed.

(** C9. The homogeneous check [P.contradicts(Q)] and the raw-map check
    [P.contradictsi] applied to the feature map of [Q] return the same
    Boolean. *)
Theorem contradicts_contradictsi_agree (P Q : Phoneme) :
  contradicts P Q = contradictsi P (features Q).
Proof.
  unfold contradicts, contradictsi, getitem. reflexivity.
Qed.

(** C10. The unchecked [A.update(B)] always returns a phoneme (it has no
    failure and writes no warning); in it every feature of [B] carries the
    sign it has in [B], also where [A] had the opposite sign, and every
    feature absent from [B] is as in [A]. *)
Theorem update_overwrites (A B : Phoneme) :
  ∃ R, update A B = R
       ∧ (∀ feature s, getitem B feature = Some s → getitem R feature = Some s)
       ∧ (∀ feature, getitem B feature = None →
                     getitem R feature = getitem A feature).
Proof.
  exists (update A B). unfold getitem. split; [done|].
  split; intros feature; rewrite lookup_update.
  - by intros s ->.
  - by intros ->.
Qed.

Lemma update_overwrites_witness :
  getitem P_denasal_labial "nasal" = Some false
  ∧ getitem P_nasal "nasal" = Some true
  ∧ getitem (update P_nasal P_denasal_labial) "nasal" = Some false.
Proof.
  assert (getitem P_denasal_labial "nasal" = Some false) as H
    by (vm_compute; reflexivity).
  split; [exact H|]. split; [vm_compute; reflexivity|].
  destruct (update_overwrites P_nasal P_denasal_labial) as (R & <- & Hset & _).
  exact (Hset _ _ H).
Defined.

(** ** The symbol table: claims *)

(** C2, as stated, fails: the stored phoneme [+nasal] merged with the delta
    [-nasal +labial] keeps [labial] unspecified, although [labial] does not
    conflict. *)
Lemma define_symbol_conflict_drops_compatible_feature :
  let symbols : gmap string Phoneme := {[ "m"%string := P_nasal ]} in
  contradicts P_nasal P_denasal_labial = true
  ∧ getitem P_nasal "labial" = None
  ∧ getitem P_denasal_labial "labial" = Some true
  ∧ ∃ p, fst (define_symbol "m" P_denasal_labial symbols) !! "m"%string = Some p
         ∧ getitem p "labial" = None.
Proof.
  simpl. repeat split; try (vm_compute; reflexivity).
  exists P_nasal. split; vm_compute; reflexivity.
Qed.

(** C2, amended. When the delta contradicts the phoneme stored for a
    symbol, the merge is skipped as a whole: one warning is written and the
    symbol table, hence the stored phoneme, is left as it was; no feature of
    the delta is applied. *)
Theorem define_symbol_conflict_all_or_nothing
    (symbols : gmap string Phoneme) (name : string) (p delta : Phoneme) :
  symbols !! name = Some p →
  contradicts p delta = true →
  define_symbol name delta symbols = (symbols, [warning_inconsistent]).
Proof.
  intros Hp Hc. unfold define_symbol, edit. rewrite Hp. simpl. rewrite Hp, Hc.
  by rewrite insert_id.
Qed.

Lemma define_symbol_conflict_all_or_nothing_witness :
  let symbols : gmap string Phoneme := {[ "m"%string := P_nasal_labial ]} in
  symbols !! "m"%string = Some P_nasal_labial
  ∧ contradicts P_nasal_labial P_denasal_labial = true
  ∧ define_symbol "m" P_denasal_labial symbols = (symbols, [warning_inconsistent]).
Proof.
  simpl.
  assert (({[ "m"%string := P_nasal_labial ]} : gmap string Phoneme) !! "m"%string
          = Some P_nasal_labial) as H1 by (vm_compute; reflexivity).
  assert (contradicts P_nasal_labial P_denasal_labial = true) as H2
    by (vm_compute; reflexivity).
  split; [exact H1|]. split; [exact H2|].
  exact (define_symbol_conflict_all_or_nothing _ _ _ _ H1 H2).
Defined.


(** ** The implication store: claims *)

(** C3. When the antecedent contradicts the consequent, [add_constraint]
    returns with the store exactly as it was and nothing written; and in no
    store that a session reaches does a rule's antecedent contradict its
    consequent, so a rule such as [+voice => -voice] is never stored. *)
Theorem add_constraint_rejects_contradiction `{TupleHash} :
  (∀ key value s,
      contradicts (value_of key) value = true →
      add_constraint key value s = Some (s, []))
  ∧ (∀ s A C, reachable s → (A, C) ∈ s → contradicts (value_of A) C = false).
Proof.
  split.
  - intros key value s Hc. unfold add_constraint. by rewrite Hc.
  - intros s A C Hs Hin. exact (reachable_consistent s Hs (A, C) Hin).
Qed.

Lemma add_constraint_rejects_contradiction_witness :
  let H := example_hash in
  contradicts (value_of K_voice) P_voice_minus = true
  ∧ add_constraint K_voice P_voice_minus [(K_voice_labial, P_nasal)]
    = Some ([(K_voice_labial, P_nasal)], []).
Proof.
  intros H.
  assert (contradicts (value_of K_voice) P_voice_minus = true) as Hc
    by (vm_compute; reflexivity).
  split; [exact Hc|].
  exact (proj1 add_constraint_rejects_contradiction _ _ _ Hc).
Defined.



(** C1, as stated, fails.  From the empty store, asserting
    [+voice => +nasal], then [+voice +labial => +nasal +sonorant], then
    [+voice => +sonorant] merges the third consequent into the first rule
    (the two antecedents [+voice] have one feature, hence one order and
    one hash); the store then holds [+voice => +nasal +sonorant], which
    dominates the second rule. *)
Lemma reachable_store_not_minimal :
  let H := example_hash in
  let s1 := [(K_voice, P_nasal)] in
  let s2 := [(K_voice, P_nasal); (K_voice_labial, P_nasal_sonorant)] in
  let s3 := [(K_voice, P_nasal_sonorant); (K_voice_labial, P_nasal_sonorant)] in
  add_constraint K_voice P_nasal [] = Some (s1, [])
  ∧ add_constraint K_voice_labial P_nasal_sonorant s1 = Some (s2, [])
  ∧ add_constraint K_voice P_sonorant s2 = Some (s3, [])
  ∧ reachable s3
  ∧ ¬ dominance_free s3.
Proof.
  intros H s1 s2 s3.
  assert (add_constraint K_voice P_nasal [] = Some (s1, []))
    as H1 by (vm_compute; reflexivity).
  assert (add_constraint K_voice_labial P_nasal_sonorant s1 = Some (s2, []))
    as H2 by (vm_compute; reflexivity).
  assert (add_constraint K_voice P_sonorant s2 = Some (s3, []))
    as H3 by (vm_compute; reflexivity).
  split; [exact H1|]. split; [exact H2|]. split; [exact H3|]. split.
  - eapply reachable_add; [|exact H3].
    eapply reachable_add; [|exact H2].
    eapply reachable_add; [|exact H1]. constructor.
  - intros Hfree.
    apply (Hfree (K_voice_labial, P_nasal_sonorant) (K_voice, P_nasal_sonorant)).
    + right. left.
    + left.
    + intros [= E].
    + split; vm_compute; reflexivity.
Qed.

(** C1, amended.  When no stored rule is dominated by another, the same
    holds after [add_constraint], provided the call does not merge the new
    consequent into a stored one: that is, provided that the consequent
    which the dictionary finds for the antecedent, if it finds one, is
    weaker than, stronger than, or in contradiction with the new
    consequent. *)
Theorem add_constraint_keeps_minimal_cover `{TupleHash}
    (key : PhonemeObject) (value : Phoneme) (s : Store) :
  dict_wf s →
  dominance_free s →
  (∀ c, store_get key s = Some c →
        Phoneme_le c value = true ∨ Phoneme_le value c = true
        ∨ contradicts c value = true) →
  ∃ s' err, add_constraint key value s = Some (s', err)
            ∧ dict_wf s' ∧ dominance_free s'.
Proof.
  intros Hnd Hfree Hmerge.
  cut (∃ s' err, add_constraint key value s = Some (s', err) ∧ dominance_free s').
  { intros (s' & err & Hadd & Hfree'). exists s', err.
    eauto using add_constraint_wf. }
  rewrite add_constraint_sweep by done.
  destruct (contradicts (value_of key) value); [by exists s, []|].
  pose proof (sweep_sublist (value_of key) value s) as Hsub.
  destruct (sweep (value_of key) value s) as [[] cs] eqn:Hsw;
    simpl in Hsub; cycle 1.
  { exists cs, []. split; [done|]. by eapply dominance_free_sublist. }
  pose proof (sweep_result_clean _ _ _ _ Hsw) as Hclean.
  rewrite Forall_forall in Hclean.
  assert (dominance_free cs) as Hcsfree by (by eapply dominance_free_sublist).
  destruct (store_get key cs) as [c|] eqn:Hget.
  - destruct (store_get_Some _ _ _ Hget) as (a & Hin & Hid).
    destruct (Hclean _ Hin) as [Ha Hb].
    unfold subsumes, dominated, Phoneme_le in Ha, Hb. simpl in Ha, Hb.
    rewrite (key_id_value _ _ Hid), issubset_refl in Ha, Hb. simpl in Ha, Hb.
    assert (store_get key s = Some c) as Hs.
    { eapply store_get_match; [done| |exact Hid]. by eapply elem_of_sublist. }
    unfold Phoneme_le in Hmerge.
    destruct (Hmerge _ Hs) as [Hle|[Hle|Hc]]; [congruence..|].
    unfold edit. rewrite Hc. simpl. rewrite store_set_same by done.
    by exists cs, [warning_inconsistent].
  - rewrite store_set_absent by done.
    exists (cs ++ [(key, value)]), []. split; [done|].
    intros r r' Hr Hr' Hne [H1 H2].
    apply elem_of_app in Hr as [Hr|Hr]; apply elem_of_app in Hr' as [Hr'|Hr'].
    + exact (Hcsfree r r' Hr Hr' Hne (conj H1 H2)).
    + apply list_elem_of_singleton in Hr' as ->. simpl in H1, H2.
      destruct (Hclean _ Hr) as [_ Hb]. unfold dominated in Hb.
      by rewrite H1, H2 in Hb.
    + apply list_elem_of_singleton in Hr as ->. simpl in H1, H2.
      destruct (Hclean _ Hr') as [Ha _]. unfold subsumes in Ha.
      by rewrite H1, H2 in Ha.
    + apply list_elem_of_singleton in Hr as ->.
      apply list_elem_of_singleton in Hr' as ->. done.
Qed.

Lemma add_constraint_keeps_minimal_cover_witness :
  let H := example_hash in
  let s := [(K_voice, P_nasal); (K_nasal_labial, P_voice);
            (K_voice_coronal, P_nasal_labial)] in
  dict_wf s
  ∧ dominance_free s
  ∧ store_get K_voice s = Some P_nasal
  ∧ Phoneme_le P_nasal P_nasal_sonorant = true
  ∧ add_constraint K_voice P_nasal_sonorant s
    = Some ([(K_nasal_labial, P_voice); (K_voice_coronal, P_nasal_labial);
             (K_voice, P_nasal_sonorant)], [])
  ∧ ∃ s' err, add_constraint K_voice P_nasal_sonorant s = Some (s', err)
              ∧ dict_wf s' ∧ dominance_free s'.
Proof.
  intros H s.
  assert (dict_wf s) as Hwf by (apply distinct_keys_wf; vm_compute; reflexivity).
  assert (dominance_free s) as Hfree
    by (apply no_dominance_free; vm_compute; reflexivity).
  assert (store_get K_voice s = Some P_nasal) as Hget
    by (vm_compute; reflexivity).
  assert (Phoneme_le P_nasal P_nasal_sonorant = true) as Hle
    by (vm_compute; reflexivity).
  split; [exact Hwf|]. split; [exact Hfree|].
  split; [exact Hget|]. split; [exact Hle|].
  split; [vm_compute; reflexivity|].
  apply (add_constraint_keeps_minimal_cover K_voice P_nasal_sonorant s Hwf Hfree).
  intros c Hc. rewrite Hget in Hc. injection Hc as <-. left. exact Hle.
Defined.

(** The iteration order of a dictionary is not fixed by the program.  With
    the two rules below in the store, asserting
    [+voice +labial => +nasal +sonorant] either keeps a rule that the new
    one dominates, or deletes a rule although a stored rule subsumes the
    new one, according to the order in which the scan meets the two
    rules. *)
Lemma two_rule_store_either_order :
  let H := example_hash in
  let r1 := (K_voice, P_nasal_sonorant) in
  let r2 := (K_voice_labial_coronal, P_nasal_sonorant) in
  subsumes P_voice_labial P_nasal_sonorant r1 = true
  ∧ dominated P_voice_labial P_nasal_sonorant r2 = true
  ∧ add_constraint K_voice_labial P_nasal_sonorant [r1; r2] = Some ([r1; r2], [])
  ∧ add_constraint K_voice_labial P_nasal_sonorant [r2; r1] = Some ([r1], []).
Proof. intros H r1 r2. split; [|split; [|split]]; vm_compute; reflexivity. Qed.




(** C5, as stated, fails.  In the reachable store
    [+voice => +nasal +sonorant; +voice +labial +coronal => +nasal +sonorant]
    the second rule is dominated by the new rule
    [+voice +labial => +nasal +sonorant], but the scan stops at the first
    rule, which subsumes the new one, and the second rule stays. *)
Lemma dominated_rule_survives_insert :
  let H := example_hash in
  let s := [(K_voice, P_nasal_sonorant);
            (K_voice_labial_coronal, P_nasal_sonorant)] in
  reachable s
  ∧ (K_voice_labial_coronal, P_nasal_sonorant) ∈ s
  ∧ Phoneme_le (value_of K_voice_labial) (value_of K_voice_labial_coronal) = true
  ∧ Phoneme_le P_nasal_sonorant P_nasal_sonorant = true
  ∧ ∃ s', add_constraint K_voice_labial P_nasal_sonorant s = Some (s', [])
          ∧ (K_voice_labial_coronal, P_nasal_sonorant) ∈ s'.
Proof.
  intros H s. split.
  { eapply (reachable_add
              [(K_voice, P_nasal); (K_voice_labial_coronal, P_nasal_sonorant)]
              K_voice P_sonorant); [|vm_compute; reflexivity].
    eapply (reachable_add [(K_voice, P_nasal)]
              K_voice_labial_coronal P_nasal_sonorant); [|vm_compute; reflexivity].
    eapply (reachable_add [] K_voice P_nasal);
      [constructor | vm_compute; reflexivity]. }
  split; [right; left|].
  split; [vm_compute; reflexivity|]. split; [vm_compute; reflexivity|].
  exists s. split; [vm_compute; reflexivity | right; left].
Qed.

(** C5, amended.  In any dictionary, when the new rule is self-consistent
    and no stored rule subsumes it, so that the scan runs to its end,
    [add_constraint] deletes every stored rule [(A, C)] with
    [antecedent <= A] and [C <= consequent], all of them and not only the
    first, and keeps every other rule whose key the dictionary does not
    take for the new antecedent.  One call can evict two rules; and
    asserting [+voice +labial => +nasal] and then [+voice => +nasal] from
    the empty store leaves the second rule only. *)
Theorem add_constraint_evicts_dominated `{TupleHash} :
  (∀ key value s,
      dict_wf s →
      contradicts (value_of key) value = false →
      (∀ A C, (A, C) ∈ s →
              ¬ (Phoneme_le (value_of A) (value_of key) = true
                 ∧ Phoneme_le value C = true)) →
      ∃ s' err,
        add_constraint key value s = Some (s', err)
        ∧ (∀ A C, (A, C) ∈ s →
                  Phoneme_le (value_of key) (value_of A) = true →
                  Phoneme_le C value = true →
                  (A, C) ∉ s')
        ∧ (∀ A C, (A, C) ∈ s →
                  ¬ (Phoneme_le (value_of key) (value_of A) = true
                     ∧ Phoneme_le C value = true) →
                  same_key A key = false → (A, C) ∈ s'))
  ∧ (∀ s1 s2 s3,
        s1 = [(K_voice_labial, P_nasal)] →
        s2 = [(K_voice_labial, P_nasal); (K_voice_coronal, P_nasal)] →
        s3 = [(K_voice, P_nasal)] →
        add_constraint K_voice_labial P_nasal [] = Some (s1, [])
        ∧ add_constraint K_voice_coronal P_nasal s1 = Some (s2, [])
        ∧ add_constraint K_voice P_nasal s2 = Some (s3, [])
        ∧ add_constraint K_voice P_nasal s1 = Some (s3, [])).
Proof.
  split.
  2: { intros s1 s2 s3 -> -> ->.
       assert (dict_wf [(K_voice_labial, P_nasal)]) as Hwf1.
       { apply dict_wf_cons; [|constructor].
         apply values_differ. vm_compute; reflexivity. }
       assert (dict_wf [(K_voice_labial, P_nasal); (K_voice_coronal, P_nasal)])
         as Hwf2.
       { apply dict_wf_cons; [|apply dict_wf_cons; [|constructor]];
           apply values_differ; vm_compute; reflexivity. }
       split; [|split; [|split]].
       - rewrite add_constraint_fresh;
           [reflexivity | constructor | vm_compute; reflexivity
            | reflexivity | reflexivity].
       - rewrite add_constraint_fresh;
           [vm_compute; reflexivity | exact Hwf1 | vm_compute; reflexivity
            | vm_compute; reflexivity |].
         apply store_get_None_values, values_differ. vm_compute; reflexivity.
       - rewrite add_constraint_fresh;
           [vm_compute; reflexivity | exact Hwf2 | vm_compute; reflexivity
            | vm_compute; reflexivity |].
         apply store_get_None_values, values_differ. vm_compute; reflexivity.
       - rewrite add_constraint_fresh;
           [vm_compute; reflexivity | exact Hwf1 | vm_compute; reflexivity
            | vm_compute; reflexivity |].
         apply store_get_None_values, values_differ. vm_compute; reflexivity. }
  intros key value s Hnd Hkv Hnosub.
  rewrite add_constraint_sweep, Hkv by done.
  assert (∀ r, r ∈ s → subsumes (value_of key) value r = false) as Hs.
  { intros [A C] Hr.
    destruct (subsumes (value_of key) value (A, C)) eqn:E; [|done].
    apply andb_true_iff in E. destruct (Hnosub A C Hr E). }
  pose proof (sweep_no_subsumer _ _ _ Hs) as Hw.
  pose proof (sweep_sublist (value_of key) value s) as Hsub.
  destruct (sweep (value_of key) value s) as [w cs] eqn:Hsw.
  simpl in Hw, Hsub. subst w.
  destruct (sweep_worthwhile _ _ _ _ Hsw) as [_ Hcs].
  assert (∀ x A C, (A, C) ∈ s →
                   ¬ (Phoneme_le (value_of key) (value_of A) = true
                      ∧ Phoneme_le C value = true) →
                   same_key A key = false → (A, C) ∈ store_set key x cs) as Hkept.
  { intros x A C Hin Hnd' Hne. apply elem_of_store_set_other.
    - apply Hcs. split; [done|].
      destruct (dominated (value_of key) value (A, C)) eqn:Hd; [|done].
      apply andb_true_iff in Hd. destruct (Hnd' Hd).
    - by apply same_key_false. }
  destruct (store_get key cs) as [c|] eqn:Hget.
  - exists (store_set key (fst (edit c value)) cs), (snd (edit c value)).
    split; [done|]. split; [|by eauto].
    intros A C Hin HA HC Hin'.
    apply store_set_ext_elem in Hin' as [Hin'|[Hid HCx]].
    + apply Hcs in Hin' as [_ Hd]. unfold dominated in Hd. simpl in Hd.
      by rewrite HA, HC in Hd.
    + simpl in Hid, HCx.
      destruct (store_get_Some _ _ _ Hget) as (a & Ha & Hida).
      assert (store_get key s = Some c) as Hsc.
      { eapply store_get_match; [done| |exact Hida]. by eapply elem_of_sublist. }
      rewrite (store_get_match A key C s Hnd Hin Hid) in Hsc.
      injection Hsc as ->.
      apply Hcs in Ha as [_ Hd]. unfold dominated in Hd. simpl in Hd.
      rewrite (key_id_value _ _ Hid) in HA.
      rewrite (key_id_value _ _ Hida) in Hd. by rewrite HA, HC in Hd.
  - exists (store_set key value cs), []. split; [done|]. split; [|by eauto].
    intros A C Hin HA HC Hin'.
    apply store_set_ext_elem in Hin' as [Hin'|[Hid HCx]].
    + apply Hcs in Hin' as [_ Hd]. unfold dominated in Hd. simpl in Hd.
      by rewrite HA, HC in Hd.
    + simpl in Hid, HCx. subst C. specialize (Hs _ Hin).
      unfold subsumes in Hs. simpl in Hs.
      rewrite (key_id_value _ _ Hid) in Hs. unfold Phoneme_le in Hs.
      by rewrite !issubset_refl in Hs.
Qed.

Lemma add_constraint_evicts_dominated_witness :
  let H := example_hash in
  let s := [(K_voice_labial, P_nasal); (K_nasal_labial, P_voice);
            (K_voice_coronal, P_nasal)] in
  dict_wf s
  ∧ contradicts (value_of K_voice) P_nasal = false
  ∧ add_constraint K_voice P_nasal s
    = Some ([(K_nasal_labial, P_voice); (K_voice, P_nasal)], [])
  ∧ ∃ s' err,
      add_constraint K_voice P_nasal s = Some (s', err)
      ∧ ((K_voice_labial, P_nasal) ∉ s')
      ∧ ((K_voice_coronal, P_nasal) ∉ s')
      ∧ (K_nasal_labial, P_voice) ∈ s'.
Proof.
  intros H s.
  assert (dict_wf s) as Hwf by (apply distinct_keys_wf; vm_compute; reflexivity).
  assert (contradicts (value_of K_voice) P_nasal = false) as Hkv
    by (vm_compute; reflexivity).
  split; [exact Hwf|]. split; [exact Hkv|]. split; [vm_compute; reflexivity|].
  destruct (proj1 add_constraint_evicts_dominated K_voice P_nasal s Hwf Hkv)
    as (s' & err & Hadd & Hgone & Hkept).
  { intros A C Hin [H1 H2].
    pose proof (forallb_elem_of (λ r, negb (subsumes (value_of K_voice) P_nasal r))
                  s ltac:(vm_compute; reflexivity) (A, C) Hin) as Hc.
    unfold subsumes in Hc. simpl in Hc. by rewrite H1, H2 in Hc. }
  exists s', err. split; [exact Hadd|]. split; [|split].
  - apply Hgone; [left | vm_compute; reflexivity | vm_compute; reflexivity].
  - apply Hgone; [right; right; left | vm_compute; reflexivity
                  | vm_compute; reflexivity].
  - apply Hkept; [right; left | | vm_compute; reflexivity].
    intros [H1 _]. vm_compute in H1. discriminate H1.
Defined.
(** ** Further properties of the feature algebra *)

Lemma contradicts_update_self (A B : Phoneme) : contradicts (update A B) B = false.
Proof.
  apply contradicts_false. intros feature s t. rewrite lookup_update.
  intros Hs Ht. rewrite Ht in Hs. congruence.
Qed.

Lemma update_update_same (A B : Phoneme) : update (update A B) B = update A B.
Proof.
  apply Phoneme_ext. unfold update; simpl.
  by rewrite (assoc_L (∪)), (idemp_L (∪)).
Qed.

Lemma edit_grows (A B : Phoneme) : issubset A (fst (edit A B)) = true.
Proof.
  unfold edit. destruct (contradicts A B) eqn:H; simpl.
  - apply issubset_refl.
  - by apply issubset_update_l.
Qed.

Lemma edit_again (A B : Phoneme) : edit (fst (edit A B)) B = edit A B.
Proof.
  unfold edit. destruct (contradicts A B) eqn:H; simpl.
  - by rewrite H.
  - by rewrite contradicts_update_self, update_update_same.
Qed.

(** X1. [__eq__], which compares the sizes and tests inclusion one way
    only, holds exactly of two phonemes with the same signed features; it
    is therefore symmetric, and [__ne__] holds exactly of phonemes that
    differ. *)
Theorem Phoneme_eq_decides_equality (A B : Phoneme) :
  (Phoneme_eq A B = true ↔ ∀ feature, getitem A feature = getitem B feature)
  ∧ Phoneme_eq A B = Phoneme_eq B A
  ∧ (Phoneme_ne A B = true ↔ A ≠ B).
Proof.
  split; [|split].
  - rewrite Phoneme_eq_spec. unfold getitem. split; [by intros ->|].
    intros H. by apply Phoneme_ext, map_eq.
  - apply eq_true_iff_eq. rewrite !Phoneme_eq_spec. split; congruence.
  - unfold Phoneme_ne. rewrite negb_true_iff. apply Phoneme_eq_false.
Qed.

(** X2. Two phonemes contradict each other exactly when no phoneme is
    above both in the order [<=]. *)
Theorem contradicts_iff_no_common_extension (A B : Phoneme) :
  contradicts A B = false ↔
  ∃ C, Phoneme_le A C = true ∧ Phoneme_le B C = true.
Proof.
  unfold Phoneme_le. split.
  - intros H. exists (update A B).
    split; [by apply issubset_update_l | apply issubset_update_r].
  - intros (C & HA & HB). apply contradicts_false. intros feature s t Hs Ht.
    rewrite issubset_spec in HA, HB.
    apply HA in Hs. apply HB in Ht. congruence.
Qed.

(** X3. When the two phonemes do not contradict each other, [edit] writes
    no warning and leaves in the receiver the least phoneme above both. *)
Theorem edit_is_least_upper_bound (A B : Phoneme) :
  contradicts A B = false →
  ∃ R, edit A B = (R, [])
       ∧ Phoneme_le A R = true ∧ Phoneme_le B R = true
       ∧ ∀ C, Phoneme_le A C = true → Phoneme_le B C = true →
              Phoneme_le R C = true.
Proof.
  intros H. exists (update A B). unfold edit, Phoneme_le. rewrite H.
  split; [done|]. split; [by apply issubset_update_l|].
  split; [apply issubset_update_r|]. intros C. apply update_least.
Qed.

Lemma edit_is_least_upper_bound_witness :
  contradicts P_nasal P_sonorant = false
  ∧ ∃ R, edit P_nasal P_sonorant = (R, [])
         ∧ Phoneme_le P_nasal R = true ∧ Phoneme_le P_sonorant R = true
         ∧ ∀ C, Phoneme_le P_nasal C = true → Phoneme_le P_sonorant C = true →
                Phoneme_le R C = true.
Proof.
  assert (contradicts P_nasal P_sonorant = false) as H by (vm_compute; reflexivity).
  split; [exact H|]. exact (edit_is_least_upper_bound P_nasal P_sonorant H).
Defined.

(** X4. [edit] never removes a feature of the receiver nor changes its
    sign, it warns exactly when the two phonemes contradict each other, and
    repeating the same edit changes nothing more. *)
Theorem edit_grows_and_is_idempotent (A B : Phoneme) :
  Phoneme_le A (fst (edit A B)) = true
  ∧ (snd (edit A B) = [] ↔ contradicts A B = false)
  ∧ edit (fst (edit A B)) B = edit A B.
Proof.
  split; [apply edit_grows|]. split; [|apply edit_again].
  unfold edit. by destruct (contradicts A B).
Qed.

(** X5. Successive [update]s compose: updating by [B] and then by [C] is
    updating by [B] updated by [C]; updating a phoneme by itself or by
    the empty phoneme changes nothing, and the argument is always below
    the result. *)
Theorem update_composes (A B C : Phoneme) :
  update (update A B) C = update A (update B C)
  ∧ update A A = A
  ∧ update A Phoneme_new = A
  ∧ update Phoneme_new A = A
  ∧ Phoneme_le B (update A B) = true.
Proof.
  split; [|split; [|split; [|split]]].
  - apply Phoneme_ext. unfold update; simpl. by rewrite (assoc_L (∪)).
  - apply Phoneme_ext. unfold update; simpl. by rewrite (idemp_L (∪)).
  - apply Phoneme_ext. unfold update.
    by rewrite Phoneme_new_empty, (left_id_L ∅ (∪)).
  - apply Phoneme_ext. unfold update.
    by rewrite Phoneme_new_empty, (right_id_L ∅ (∪)).
  - apply issubset_update_r.
Qed.

(** X6. In [Phoneme(features, plus, minus)] a feature listed in [minus] is
    negative, also when it is in [plus] or in [features]; otherwise one
    listed in [plus] is positive; otherwise it is as in [features].  A
    [copy] has the features of its receiver. *)
Theorem Phoneme_init_precedence
    (feats : gmap string bool) (plus minus : gset string) (feature : string) :
  getitem (Phoneme_init feats plus minus) feature
  = (if decide (feature ∈ minus) then Some false
     else if decide (feature ∈ plus) then Some true
          else feats !! feature)
  ∧ copy (mkPhoneme feats) = mkPhoneme feats.
Proof.
  split; [|apply copy_eq].
  unfold getitem, Phoneme_init; simpl. rewrite !lookup_union.
  rewrite !lookup_gset_to_gmap.
  destruct (decide (feature ∈ minus)), (decide (feature ∈ plus));
    simplify_option_eq; by destruct (feats !! feature).
Qed.

(** ** Further properties of the symbol table *)

Lemma define_symbol_lookup (name : string) (delta : Phoneme)
    (symbols : gmap string Phoneme) (n : string) :
  fst (define_symbol name delta symbols) !! n
  = if decide (n = name)
    then Some (fst (edit (default Phoneme_new (symbols !! name)) delta))
    else symbols !! n.
Proof.
  unfold define_symbol. destruct (symbols !! name) as [p|] eqn:H; simpl.
  - rewrite H. destruct (edit p delta) as [p' e]. simpl.
    destruct (decide (n = name)) as [->|Hne].
    + by rewrite lookup_insert_eq.
    + by rewrite lookup_insert_ne.
  - rewrite lookup_insert_eq. destruct (edit Phoneme_new delta) as [p' e]. simpl.
    destruct (decide (n = name)) as [->|Hne].
    + by rewrite lookup_insert_eq.
    + by rewrite !lookup_insert_ne.
Qed.

Lemma edit_new (delta : Phoneme) : edit Phoneme_new delta = (delta, []).
Proof.
  unfold edit. rewrite contradicts_new. f_equal.
  apply Phoneme_ext. unfold update.
  by rewrite Phoneme_new_empty, (right_id_L ∅ (∪)).
Qed.

Lemma define_symbols_lookup (names : list string) (delta : Phoneme) :
  ∀ (symbols : gmap string Phoneme) (n : string),
    fst (define_symbols names delta symbols) !! n
    = if decide (n ∈ names)
      then Some (fst (edit (default Phoneme_new (symbols !! n)) delta))
      else symbols !! n.
Proof.
  induction names as [|n0 rest IH]; intros symbols n; simpl.
  - destruct (decide (n ∈ [])) as [Hin|]; [|done]. by apply elem_of_nil in Hin.
  - pose proof (define_symbol_lookup n0 delta symbols n) as H0.
    destruct (define_symbol n0 delta symbols) as [symbols1 err1].
    specialize (IH symbols1 n).
    destruct (define_symbols rest delta symbols1) as [symbols2 err2].
    simpl in *. rewrite IH, H0.
    destruct (decide (n = n0)) as [->|Hne].
    + rewrite (decide_True (P := n0 ∈ n0 :: rest)) by left.
      destruct (decide (n0 ∈ rest)); [|done]. simpl. by rewrite edit_again.
    + destruct (decide (n ∈ rest)) as [Hin|Hnotin].
      * rewrite (decide_True (P := n ∈ n0 :: rest)) by (by right). done.
      * rewrite (decide_False (P := n ∈ n0 :: rest)); [done|].
        rewrite elem_of_cons. tauto.
Qed.

(** X7. Defining a symbol that was not yet in the table binds it to the
    delta and writes no warning, and resolving it then gives the delta
    back; resolving a symbol fails exactly when it was never defined. *)
Theorem define_unseen_then_resolve
    (symbols : gmap string Phoneme) (name : string) (delta : Phoneme) :
  symbols !! name = None →
  resolve_symbol name symbols = None
  ∧ define_symbol name delta symbols = (<[name := delta]> symbols, [])
  ∧ resolve_symbol name (fst (define_symbol name delta symbols)) = Some delta.
Proof.
  intros H.
  assert (define_symbol name delta symbols = (<[name := delta]> symbols, [])) as Hd.
  { unfold define_symbol. rewrite H, lookup_insert_eq, edit_new.
    by rewrite insert_insert_eq. }
  split; [unfold resolve_symbol; by rewrite H|]. split; [done|].
  rewrite Hd. unfold resolve_symbol. simpl.
  by rewrite lookup_insert_eq; simpl; rewrite copy_eq.
Qed.

Lemma define_unseen_then_resolve_witness :
  (∅ : gmap string Phoneme) !! "m"%string = None
  ∧ resolve_symbol "m" (fst (define_symbol "m" P_nasal_labial ∅))
    = Some P_nasal_labial.
Proof.
  assert ((∅ : gmap string Phoneme) !! "m"%string = None) as H by reflexivity.
  split; [exact H|].
  exact (proj2 (proj2 (define_unseen_then_resolve ∅ "m" P_nasal_labial H))).
Defined.

(** X8. One definition leaves every other symbol as it was, leaves the
    named symbol defined, and only adds to what was stored for it: the old
    phoneme is below the new one. *)
Theorem define_symbol_frame_and_growth
    (symbols : gmap string Phoneme) (name : string) (delta : Phoneme) :
  (∀ n, n ≠ name → fst (define_symbol name delta symbols) !! n = symbols !! n)
  ∧ is_Some (fst (define_symbol name delta symbols) !! name)
  ∧ (∀ p, symbols !! name = Some p →
          ∃ p', fst (define_symbol name delta symbols) !! name = Some p'
                ∧ Phoneme_le p p' = true).
Proof.
  split; [|split].
  - intros n Hne. rewrite define_symbol_lookup. by rewrite decide_False.
  - rewrite define_symbol_lookup, decide_True by done. eauto.
  - intros p Hp. rewrite define_symbol_lookup, decide_True by done.
    rewrite Hp. simpl. eexists. split; [done|]. apply edit_grows.
Qed.

Lemma define_symbol_frame_and_growth_witness :
  let symbols : gmap string Phoneme := {[ "m"%string := P_nasal ]} in
  symbols !! "m"%string = Some P_nasal
  ∧ ∃ p', fst (define_symbol "m" P_sonorant symbols) !! "m"%string = Some p'
          ∧ Phoneme_le P_nasal p' = true.
Proof.
  simpl.
  assert (({[ "m"%string := P_nasal ]} : gmap string Phoneme) !! "m"%string
          = Some P_nasal) as H by (vm_compute; reflexivity).
  split; [exact H|].
  exact (proj2 (proj2 (define_symbol_frame_and_growth _ "m"%string P_sonorant))
           P_nasal H).
Defined.

(** X9. After the loop over the symbols named on a line, every named
    symbol holds its old phoneme (or the empty one) edited by the delta,
    every other symbol is as before, and the table does not depend on the
    order, nor on repetitions, in which the names are visited. *)
Theorem define_symbols_result
    (names : list string) (delta : Phoneme) (symbols : gmap string Phoneme) :
  (∀ n, n ∈ names →
        fst (define_symbols names delta symbols) !! n
        = Some (fst (edit (default Phoneme_new (symbols !! n)) delta)))
  ∧ (∀ n, n ∉ names → fst (define_symbols names delta symbols) !! n = symbols !! n)
  ∧ (∀ names', (∀ n, n ∈ names' ↔ n ∈ names) →
               fst (define_symbols names' delta symbols)
               = fst (define_symbols names delta symbols)).
Proof.
  split; [|split].
  - intros n Hn. by rewrite define_symbols_lookup, decide_True.
  - intros n Hn. by rewrite define_symbols_lookup, decide_False.
  - intros names' Hsame. apply map_eq. intros n.
    rewrite !define_symbols_lookup.
    destruct (decide (n ∈ names')) as [Hin|Hnotin].
    + by rewrite decide_True by (by apply Hsame).
    + rewrite decide_False; [done|]. by rewrite <- Hsame.
Qed.

Lemma define_symbols_result_witness :
  let symbols : gmap string Phoneme := {[ "m"%string := P_nasal ]} in
  (∀ n, n ∈ ["n"; "m"]%string ↔ n ∈ ["m"; "n"; "m"]%string)
  ∧ fst (define_symbols ["n"; "m"]%string P_sonorant symbols)
    = fst (define_symbols ["m"; "n"; "m"]%string P_sonorant symbols).
Proof.
  simpl.
  assert (∀ n : string, n ∈ ["n"; "m"]%string ↔ n ∈ ["m"; "n"; "m"]%string) as H.
  { intros n. rewrite !elem_of_cons, !elem_of_nil. tauto. }
  split; [exact H|].
  exact (proj2 (proj2 (define_symbols_result ["m"; "n"; "m"]%string P_sonorant
                         {[ "m"%string := P_nasal ]})) _ H).
Defined.

(** ** Further properties of the implication store *)

Section store_extra_facts.
Context `{TupleHash}.

(** A pass that meets neither a subsuming nor a dominated rule leaves the
    store as it is. *)
Lemma sweep_untouched k v s :
  (∀ r, r ∈ s → subsumes k v r = false ∧ dominated k v r = false) →
  sweep k v s = (true, s).
Proof.
  induction s as [|r0 s IH]; simpl; intros Hs; [done|].
  destruct (Hs r0) as [-> ->]; [left|].
  rewrite IH; [done|]. intros r Hr. apply Hs. by right.
Qed.

End store_extra_facts.

(** X10. In a session [add_constraint] never raises: although the loop
    deletes from the dictionary it is reading, every lookup of the scan
    finds its key.  The call returns a store, and it writes nothing or
    the one warning of [edit]. *)
Theorem add_constraint_never_raises `{TupleHash} (s : Store) :
  reachable s →
  ∀ key value, ∃ s' err,
    add_constraint key value s = Some (s', err)
    ∧ reachable s'
    ∧ (err = [] ∨ err = [warning_inconsistent]).
Proof.
  intros Hs key value. pose proof (reachable_wf s Hs) as Hnd.
  pose proof (add_constraint_sweep key value s Hnd) as Hadd.
  assert (∃ s' err, add_constraint key value s = Some (s', err)
                    ∧ (err = [] ∨ err = [warning_inconsistent]))
    as (s' & err & Ha & He).
  { rewrite Hadd. destruct (contradicts (value_of key) value); [by eauto|].
    destruct (sweep (value_of key) value s) as [[] cs]; [|by eauto].
    destruct (store_get key cs) as [c|]; [|by eauto].
    eexists _, _. split; [done|]. unfold edit.
    destruct (contradicts c value); simpl; auto. }
  exists s', err. split; [done|]. split; [|done]. by eapply reachable_add.
Qed.

Lemma add_constraint_never_raises_witness :
  let H := example_hash in
  let s := [(K_voice_labial, P_nasal); (K_voice_coronal, P_nasal)] in
  reachable s
  ∧ add_constraint K_voice P_nasal s = Some ([(K_voice, P_nasal)], [])
  ∧ ∃ s' err,
      add_constraint K_voice P_nasal s = Some (s', err)
      ∧ reachable s'
      ∧ (err = [] ∨ err = [warning_inconsistent]).
Proof.
  intros H s.
  assert (reachable s) as Hs.
  { eapply (reachable_add [(K_voice_labial, P_nasal)] K_voice_coronal P_nasal);
      [|vm_compute; reflexivity].
    eapply (reachable_add [] K_voice_labial P_nasal);
      [constructor | vm_compute; reflexivity]. }
  split; [exact Hs|]. split; [vm_compute; reflexivity|].
  exact (add_constraint_never_raises s Hs K_voice P_nasal).
Defined.

(** X11. [add_constraint] writes a warning only when the dictionary finds
    the antecedent already stored, with a consequent that contradicts the
    new one; that stored consequent is then kept as it is. *)
Theorem add_constraint_warning_means_conflict `{TupleHash}
    (key : PhonemeObject) (value : Phoneme) (s s' : Store) (err : list string) :
  dict_wf s →
  add_constraint key value s = Some (s', err) →
  err ≠ [] →
  ∃ c, store_get key s = Some c
       ∧ contradicts c value = true
       ∧ store_get key s' = Some c.
Proof.
  intros Hnd. rewrite add_constraint_sweep by done.
  destruct (contradicts (value_of key) value); [by intros [= <- <-]|].
  pose proof (sweep_sublist (value_of key) value s) as Hsub.
  destruct (sweep (value_of key) value s) as [[] cs]; simpl in Hsub;
    [|by intros [= <- <-]].
  destruct (store_get key cs) as [c|] eqn:Hget; [|by intros [= <- <-]].
  unfold edit. destruct (contradicts c value) eqn:Hc; simpl;
    [|by intros [= <- <-]].
  intros [= <- <-] _. exists c. rewrite store_set_same by done.
  split; [|done].
  destruct (store_get_Some _ _ _ Hget) as (a & Ha & Hid).
  eapply store_get_match; [done| |exact Hid]. by eapply elem_of_sublist.
Qed.

Lemma add_constraint_warning_means_conflict_witness :
  let H := example_hash in
  let s := [(K_voice_labial, P_sonorant); (K_nasal_labial, P_voice)] in
  dict_wf s
  ∧ add_constraint K_nasal_labial P_voice_minus s
    = Some (s, [warning_inconsistent])
  ∧ ∃ c, store_get K_nasal_labial s = Some c
         ∧ contradicts c P_voice_minus = true
         ∧ store_get K_nasal_labial s = Some c.
Proof.
  intros H s.
  assert (dict_wf s) as Hnd by (apply distinct_keys_wf; vm_compute; reflexivity).
  assert (add_constraint K_nasal_labial P_voice_minus s
          = Some (s, [warning_inconsistent])) as Ha
    by (vm_compute; reflexivity).
  split; [exact Hnd|]. split; [exact Ha|].
  apply (add_constraint_warning_means_conflict _ _ _ _ _ Hnd Ha).
  intros E. discriminate E.
Defined.

(** X12. After a call on a self-consistent pair that writes no warning,
    the asserted rule is implied by a stored rule: some stored rule has a
    broader-or-equal antecedent and a consequent at least as strong. *)
Theorem add_constraint_makes_rule_implied `{TupleHash}
    (key : PhonemeObject) (value : Phoneme) (s s' : Store) :
  dict_wf s →
  contradicts (value_of key) value = false →
  add_constraint key value s = Some (s', []) →
  ∃ A C, (A, C) ∈ s'
         ∧ Phoneme_le (value_of A) (value_of key) = true
         ∧ Phoneme_le value C = true.
Proof.
  intros Hnd Hkv. rewrite add_constraint_sweep, Hkv by done.
  destruct (sweep (value_of key) value s) as [[] cs] eqn:Hsw.
  - destruct (store_get key cs) as [c|] eqn:Hget.
    + unfold edit. destruct (contradicts c value) eqn:Hc; simpl; [done|].
      intros [= <-].
      destruct (elem_of_store_set_key key (update c value) cs) as (a & Ha & Hid).
      exists a, (update c value). split; [done|]. unfold Phoneme_le.
      by rewrite (key_id_value _ _ Hid), issubset_refl, issubset_update_r.
    + intros [= <-].
      destruct (elem_of_store_set_key key value cs) as (a & Ha & Hid).
      exists a, value. split; [done|]. unfold Phoneme_le.
      by rewrite (key_id_value _ _ Hid), !issubset_refl.
  - intros [= <-].
    destruct (sweep_aborted_has_subsumer _ _ _ _ Hsw) as ([A C] & Hin & Ha).
    apply andb_true_iff in Ha as [Ha1 Ha2]. by exists A, C.
Qed.

Lemma add_constraint_makes_rule_implied_witness :
  let H := example_hash in
  let s := [(K_voice_labial_coronal, P_sonorant); (K_voice, P_nasal)] in
  dict_wf s
  ∧ contradicts (value_of K_voice_labial) P_sonorant = false
  ∧ add_constraint K_voice_labial P_sonorant s
    = Some ([(K_voice, P_nasal); (K_voice_labial, P_sonorant)], [])
  ∧ ∃ A C, (A, C) ∈ [(K_voice, P_nasal); (K_voice_labial, P_sonorant)]
           ∧ Phoneme_le (value_of A) (value_of K_voice_labial) = true
           ∧ Phoneme_le P_sonorant C = true.
Proof.
  intros H s.
  assert (dict_wf s) as Hnd by (apply distinct_keys_wf; vm_compute; reflexivity).
  assert (contradicts (value_of K_voice_labial) P_sonorant = false) as Hkv
    by (vm_compute; reflexivity).
  assert (add_constraint K_voice_labial P_sonorant s
          = Some ([(K_voice, P_nasal); (K_voice_labial, P_sonorant)], [])) as Ha
    by (vm_compute; reflexivity).
  split; [exact Hnd|]. split; [exact Hkv|]. split; [exact Ha|].
  exact (add_constraint_makes_rule_implied _ _ _ _ Hnd Hkv Ha).
Defined.

(** X13. A call that writes no warning loses no knowledge: every rule of
    the store before the call is implied by a rule of the store after it. *)
Theorem add_constraint_keeps_rules_implied `{TupleHash}
    (key : PhonemeObject) (value : Phoneme) (s s' : Store) :
  dict_wf s →
  add_constraint key value s = Some (s', []) →
  ∀ A C, (A, C) ∈ s →
         ∃ A' C', (A', C') ∈ s'
                  ∧ Phoneme_le (value_of A') (value_of A) = true
                  ∧ Phoneme_le C C' = true.
Proof.
  intros Hnd. rewrite add_constraint_sweep by done.
  assert (∀ p, Phoneme_le p p = true) as Hrefl
    by (intros; apply issubset_refl).
  destruct (contradicts (value_of key) value).
  { intros [= <-] A C Hin. exists A, C. split; [done|]. split; apply Hrefl. }
  pose proof (sweep_keeps_or_dominated (value_of key) value s) as Hkeep.
  pose proof (sweep_wf (value_of key) value s Hnd) as Hcsnd.
  destruct (sweep (value_of key) value s) as [[] cs] eqn:Hsw;
    simpl in Hkeep, Hcsnd.
  - (* the scan ran to its end *)
    assert (∀ x, Phoneme_le value x = true →
                 (∀ c, store_get key cs = Some c → Phoneme_le c x = true) →
                 ∀ A C, (A, C) ∈ s →
                        ∃ A' C', (A', C') ∈ store_set key x cs
                                 ∧ Phoneme_le (value_of A') (value_of A) = true
                                 ∧ Phoneme_le C C' = true)
      as Hset.
    { intros x Hvx Hcx A C Hin.
      destruct (elem_of_store_set_key key x cs) as (a & Ha & Hida).
      destruct (Hkeep _ Hin) as [Hcs|Hd].
      - destruct (same_key A key) eqn:Ekey.
        + apply same_key_spec in Ekey.
          exists a, x. split; [done|].
          rewrite (key_id_value _ _ Hida), <- (key_id_value _ _ Ekey).
          split; [apply Hrefl|]. apply Hcx. by eapply store_get_match.
        + exists A, C. split; [|split; apply Hrefl].
          apply elem_of_store_set_other; [done|]. by apply same_key_false.
      - apply andb_true_iff in Hd as [Hd1 Hd2]. simpl in Hd1, Hd2.
        exists a, x. split; [done|].
        rewrite (key_id_value _ _ Hida). split; [done|].
        unfold Phoneme_le in *. by eapply issubset_trans. }
    destruct (store_get key cs) as [c|] eqn:Hget.
    + unfold edit. destruct (contradicts c value) eqn:Hc; simpl; [done|].
      intros [= <-]. apply Hset; [apply issubset_update_r|].
      intros c' [= <-]. by apply issubset_update_l.
    + intros [= <-]. apply Hset; [apply Hrefl | done].
  - (* the scan stopped at a rule that subsumes the new one *)
    intros [= <-] A C Hin.
    destruct (sweep_aborted_has_subsumer _ _ _ _ Hsw) as ([A0 C0] & Hin0 & Ha).
    destruct (Hkeep _ Hin) as [Hcs|Hd].
    + exists A, C. split; [done|]. split; apply Hrefl.
    + apply andb_true_iff in Ha as [Ha1 Ha2], Hd as [Hd1 Hd2].
      simpl in Ha1, Ha2, Hd1, Hd2.
      exists A0, C0. split; [done|]. unfold Phoneme_le in *.
      split; by eapply issubset_trans.
Qed.

Lemma add_constraint_keeps_rules_implied_witness :
  let H := example_hash in
  let s := [(K_voice_labial, P_nasal); (K_nasal_labial, P_voice);
            (K_voice_coronal, P_nasal)] in
  dict_wf s
  ∧ add_constraint K_voice P_nasal s
    = Some ([(K_nasal_labial, P_voice); (K_voice, P_nasal)], [])
  ∧ ∃ A' C', (A', C') ∈ [(K_nasal_labial, P_voice); (K_voice, P_nasal)]
             ∧ Phoneme_le (value_of A') (value_of K_voice_coronal) = true
             ∧ Phoneme_le P_nasal C' = true.
Proof.
  intros H s.
  assert (dict_wf s) as Hnd by (apply distinct_keys_wf; vm_compute; reflexivity).
  assert (add_constraint K_voice P_nasal s
          = Some ([(K_nasal_labial, P_voice); (K_voice, P_nasal)], [])) as Ha
    by (vm_compute; reflexivity).
  split; [exact Hnd|]. split; [exact Ha|].
  apply (add_constraint_keeps_rules_implied K_voice P_nasal s _ Hnd Ha).
  right; right; left.
Defined.

(** X23. The dictionary finds an antecedent by its hash first, and the
    hash of a phoneme depends on the order of its features.  When the
    lookup misses and no stored rule subsumes the new rule or is dominated
    by it, the new rule is appended, also when a stored antecedent
    compares equal to the new one: the store then holds two rules with
    equal antecedents. *)
Theorem add_constraint_lookup_miss_appends `{TupleHash}
    (key : PhonemeObject) (value : Phoneme) (s : Store) :
  dict_wf s →
  contradicts (value_of key) value = false →
  (∀ r, r ∈ s → subsumes (value_of key) value r = false
                ∧ dominated (value_of key) value r = false) →
  (∀ r, r ∈ s → same_key r.1 key = false) →
  add_constraint key value s = Some (s ++ [(key, value)], [])
  ∧ dict_wf (s ++ [(key, value)]).
Proof.
  intros Hwf Hkv Hs Hmiss.
  assert (store_get key s = None) as Hnone.
  { apply store_get_None. intros (a & Hid & Ha)%list_elem_of_fmap.
    apply list_elem_of_fmap in Ha as (r & -> & Hr).
    apply Hmiss, same_key_false in Hr. by destruct Hr. }
  assert (add_constraint key value s = Some (s ++ [(key, value)], [])) as Hadd.
  { rewrite add_constraint_fresh by (rewrite ?sweep_untouched; done).
    by rewrite sweep_untouched. }
  split; [exact Hadd|]. by eapply add_constraint_wf.
Qed.

Lemma add_constraint_lookup_miss_appends_witness :
  let H := example_hash in
  let s := [(K_voice_labial, P_nasal)] in
  dict_wf s
  ∧ contradicts (value_of K_labial_voice) P_sonorant = false
  ∧ Phoneme_eq (value_of K_voice_labial) (value_of K_labial_voice) = true
  ∧ builtin_hash K_voice_labial ≠ builtin_hash K_labial_voice
  ∧ add_constraint K_labial_voice P_sonorant s
    = Some ([(K_voice_labial, P_nasal); (K_labial_voice, P_sonorant)], [])
  ∧ dict_wf [(K_voice_labial, P_nasal); (K_labial_voice, P_sonorant)]
  ∧ add_constraint K_voice_labial P_sonorant s
    = Some ([(K_voice_labial, P_nasal_sonorant)], []).
Proof.
  intros H s.
  assert (dict_wf s) as Hwf by (apply distinct_keys_wf; vm_compute; reflexivity).
  assert (contradicts (value_of K_labial_voice) P_sonorant = false) as Hkv
    by (vm_compute; reflexivity).
  split; [exact Hwf|]. split; [exact Hkv|].
  split; [vm_compute; reflexivity|].
  split; [intros E; vm_compute in E; discriminate E|].
  destruct (add_constraint_lookup_miss_appends K_labial_voice P_sonorant s Hwf Hkv)
    as [Hadd Hwf'].
  - intros r ->%list_elem_of_singleton. split; vm_compute; reflexivity.
  - intros r ->%list_elem_of_singleton. vm_compute; reflexivity.
  - split; [exact Hadd|]. split; [exact Hwf'|]. vm_compute; reflexivity.
Defined.
(** ** Properties of the semantic actions *)

Section grammar_facts.
Implicit Types (symbols : gmap string Phoneme) (o : operand) (acc V R : Phoneme).

Lemma operand_value_None symbols o :
  operand_value symbols o = None ↔ ∃ name, o = Quoted name ∧ symbols !! name = None.
Proof.
  destruct o as [sign name|name]; simpl.
  - split; [done | by intros (n & [=] & _)].
  - unfold resolve_symbol. destruct (symbols !! name) eqn:E; simpl.
    + split; [done|]. intros (n & [= <-] & Hn). congruence.
    + split; [by eauto | done].
Qed.

Lemma p_features_recursive_None symbols acc rest :
  p_features_recursive symbols acc rest = None ↔
  ∃ name, Quoted name ∈ rest ∧ symbols !! name = None.
Proof.
  revert acc. induction rest as [|o rest IH]; intros acc; simpl.
  - split; [done|]. intros (n & Hin & _). by apply elem_of_nil in Hin.
  - destruct (operand_value symbols o) as [v|] eqn:Hv.
    + rewrite IH. split.
      * intros (n & Hin & Hn). exists n. split; [by right | done].
      * intros (n & Hin & Hn). exists n. split; [|done].
        apply elem_of_cons in Hin as [<-|Hin]; [|done].
        assert (operand_value symbols (Quoted n) = None) as Hnone
          by (apply operand_value_None; eauto).
        congruence.
    + split; [|done]. intros _.
      apply operand_value_None in Hv as (n & -> & Hn).
      exists n. split; [left | done].
Qed.

Lemma p_features_from_new symbols first rest :
  p_features symbols first rest
  = p_features_recursive symbols Phoneme_new (first :: rest).
Proof.
  unfold p_features. simpl. destruct (operand_value symbols first) as [v|]; [|done].
  f_equal. apply Phoneme_ext. unfold update.
  by rewrite Phoneme_new_empty, (right_id_L ∅ (∪)).
Qed.

Lemma p_features_recursive_silent symbols feature rest :
  ∀ acc R,
    p_features_recursive symbols acc rest = Some R →
    (∀ o V, o ∈ rest → operand_value symbols o = Some V →
            getitem V feature = None) →
    getitem R feature = getitem acc feature.
Proof.
  induction rest as [|o rest IH]; intros acc R; simpl.
  - by intros [= ->].
  - destruct (operand_value symbols o) as [v|] eqn:Hv; [|done].
    intros HR Hsilent. rewrite (IH _ _ HR).
    + unfold getitem. rewrite lookup_update.
      pose proof (Hsilent o v ltac:(left) Hv) as Hnone.
      unfold getitem in Hnone. by rewrite Hnone.
    + intros o' V' Hin. apply Hsilent. by right.
Qed.

Lemma p_features_recursive_last symbols feature s l1 o V l2 :
  ∀ acc R,
    p_features_recursive symbols acc (l1 ++ o :: l2) = Some R →
    operand_value symbols o = Some V →
    getitem V feature = Some s →
    (∀ o' V', o' ∈ l2 → operand_value symbols o' = Some V' →
              getitem V' feature = None) →
    getitem R feature = Some s.
Proof.
  induction l1 as [|o1 l1 IH]; intros acc R; simpl.
  - intros HR Hv HV Hsilent. rewrite Hv in HR.
    rewrite (p_features_recursive_silent _ _ _ _ _ HR Hsilent).
    unfold getitem in *. by rewrite lookup_update, HV.
  - destruct (operand_value symbols o1) as [v1|]; [|done]. apply IH.
Qed.

Lemma lookup_fold_updatei feature (rest : list string) :
  ∀ acc,
    getitem (foldl (λ acc name, updatei acc {[ name := true ]}) acc rest) feature
    = if decide (feature ∈ rest) then Some true else getitem acc feature.
Proof.
  induction rest as [|name rest IH]; intros acc; simpl.
  - destruct (decide (feature ∈ [])) as [Hin|]; [|done]. by apply elem_of_nil in Hin.
  - rewrite IH. destruct (decide (feature ∈ rest)) as [Hin|Hnotin].
    + by rewrite decide_True by (by right).
    + unfold getitem, updatei; simpl. rewrite lookup_union.
      destruct (decide (feature = name)) as [->|Hne].
      * rewrite decide_True by left. rewrite lookup_singleton_eq.
        by destruct (features acc !! name).
      * rewrite decide_False by (rewrite elem_of_cons; tauto).
        rewrite lookup_singleton_ne by done.
        by destruct (features acc !! feature).
Qed.

End grammar_facts.

(** X14. The value of an operand list of [features] is undefined (the
    action raises) exactly when one of its quoted symbols is not in the
    symbol table; signed features alone never fail. *)
Theorem p_features_fails_iff_unknown_symbol
    (symbols : gmap string Phoneme) (first : operand) (rest : list operand) :
  p_features symbols first rest = None ↔
  ∃ name, Quoted name ∈ first :: rest ∧ symbols !! name = None.
Proof. rewrite p_features_from_new. apply p_features_recursive_None. Qed.

(** X15. In the value of [features] a later operand overrides the earlier
    ones: a feature has the sign given by the last operand that specifies
    it, and is unspecified when no operand specifies it. *)
Theorem p_features_last_operand_wins
    (symbols : gmap string Phoneme) (first : operand) (rest : list operand)
    (R : Phoneme) (feature : string) :
  p_features symbols first rest = Some R →
  (∀ l1 o l2 V s,
      first :: rest = l1 ++ o :: l2 →
      operand_value symbols o = Some V →
      getitem V feature = Some s →
      (∀ o' V', o' ∈ l2 → operand_value symbols o' = Some V' →
                getitem V' feature = None) →
      getitem R feature = Some s)
  ∧ ((∀ o V, o ∈ first :: rest → operand_value symbols o = Some V →
             getitem V feature = None) →
     getitem R feature = None).
Proof.
  rewrite p_features_from_new. intros HR. split.
  - intros l1 o l2 V s Hsplit Hv HV Hsilent. rewrite Hsplit in HR.
    by eapply p_features_recursive_last.
  - intros Hsilent.
    by rewrite (p_features_recursive_silent _ _ _ _ _ HR Hsilent).
Qed.

Lemma p_features_last_operand_wins_witness :
  let symbols : gmap string Phoneme := {[ "m"%string := P_nasal_labial ]} in
  p_features symbols (Quoted "m") [Feature false "nasal"] = Some P_denasal_labial
  ∧ getitem P_denasal_labial "nasal" = Some false.
Proof.
  simpl.
  assert (p_features {[ "m"%string := P_nasal_labial ]} (Quoted "m")
            [Feature false "nasal"] = Some P_denasal_labial) as HR
    by (vm_compute; reflexivity).
  split; [exact HR|].
  apply (proj1 (p_features_last_operand_wins _ _ _ _ "nasal"%string HR)
           [Quoted "m"] (Feature false "nasal") [] (p_feature false "nasal") false).
  - reflexivity.
  - reflexivity.
  - vm_compute; reflexivity.
  - intros o' V' Hin. by apply elem_of_nil in Hin.
Defined.

(** X16. In the phoneme built on the left of a line only the first name
    takes the written sign: every further name is positive, also when it
    repeats the first name written with a minus. *)
Theorem p_features_or_new_symbols_signs
    (sign : bool) (first : string) (rest : list string) (feature : string) :
  getitem (p_features_or_new_symbols sign first rest) feature
  = if decide (feature ∈ rest) then Some true
    else if decide (feature = first) then Some sign
         else None.
Proof.
  unfold p_features_or_new_symbols. rewrite lookup_fold_updatei.
  destruct (decide (feature ∈ rest)); [done|].
  unfold getitem, Phoneme_init; simpl.
  rewrite !gset_to_gmap_empty, !(left_id_L ∅ (∪)).
  destruct (decide (feature = first)) as [->|Hne].
  - by rewrite lookup_singleton_eq.
  - by rewrite lookup_singleton_ne.
Qed.

(** ** Properties of alphabets *)

Section alphabet_facts.
Context {P : Type} `{Countable P}.
Implicit Types (self : Alphabet P) (str : string) (phm : P) (phms : list P).

Lemma append_empty_r str : String.append str EmptyString = str.
Proof.
  induction str as [|c str IH]; [done|].
  change (String c (String.append str EmptyString) = String c str).
  by rewrite IH.
Qed.

Lemma symbolize_cons self phm phms :
  symbolize self (phm :: phms)
  = String.append (match phonemes self !! phm with
                   | Some s => s
                   | None => placeholder self
                   end) (symbolize self phms).
Proof.
  unfold symbolize. destruct phms as [|phm' phms]; [|done].
  change (map _ [phm]) with [match phonemes self !! phm with
                             | Some s => s
                             | None => placeholder self
                             end].
  change (String.concat "" (map _ [])) with EmptyString.
  by rewrite append_empty_r.
Qed.

Lemma parse_Some self str phms :
  parse self str = Some phms ↔
  Forall2 (λ char phm, symbols self !! String char EmptyString = Some phm)
          (String.list_ascii_of_string str) phms.
Proof.
  revert phms. induction str as [|char str IH]; intros phms; simpl.
  - split; [intros [= <-]; constructor | by intros ->%Forall2_nil_inv_l].
  - destruct (symbols self !! String char EmptyString) as [phm|] eqn:Hc.
    + destruct (parse self str) as [feats|] eqn:Hp.
      * split.
        -- intros [= <-]. constructor; [done|]. by apply IH.
        -- intros (phm' & feats' & Hc' & Hrest & ->)%Forall2_cons_inv_l.
           apply IH in Hrest. congruence.
      * split; [done|].
        intros (phm' & feats' & Hc' & Hrest & ->)%Forall2_cons_inv_l.
        by apply IH in Hrest.
    + split; [done|].
      intros (phm' & feats' & Hc' & Hrest & ->)%Forall2_cons_inv_l. congruence.
Qed.

Lemma parse_None self str :
  parse self str = None ↔
  ∃ char, char ∈ String.list_ascii_of_string str
          ∧ symbols self !! String char EmptyString = None.
Proof.
  induction str as [|char str IH]; simpl.
  - split; [done|]. intros (c & Hin & _). by apply elem_of_nil in Hin.
  - destruct (symbols self !! String char EmptyString) as [phm|] eqn:Hc.
    + destruct (parse self str) as [feats|].
      * split; [done|]. intros (c & Hin & Hnone).
        apply elem_of_cons in Hin as [->|Hin]; [congruence|].
        assert (Some feats = None) as Hn by (apply IH; eauto). done.
      * split; [|done]. intros _. destruct (proj1 IH eq_refl) as (c & Hin & Hnone).
        exists c. split; [by right | done].
    + split; [|done]. intros _. exists char. split; [left | done].
Qed.

Lemma fold_reverse_notin (l : list (string * P)) phm :
  ∀ acc : gmap P string,
    phm ∉ l.*2 →
    foldl (λ m sp, <[snd sp := fst sp]> m) acc l !! phm = acc !! phm.
Proof.
  induction l as [|[s q] l IH]; intros acc; simpl; [done|].
  rewrite not_elem_of_cons. intros [Hne Hnotin].
  rewrite IH by done. by rewrite lookup_insert_ne.
Qed.

Lemma fold_reverse_elem (l : list (string * P)) symbol phm :
  ∀ acc : gmap P string,
    NoDup (l.*2) → (symbol, phm) ∈ l →
    foldl (λ m sp, <[snd sp := fst sp]> m) acc l !! phm = Some symbol.
Proof.
  induction l as [|[s q] l IH]; intros acc; simpl.
  - intros _ Hin. by apply elem_of_nil in Hin.
  - intros [Hnotin Hnd]%NoDup_cons Hin.
    apply elem_of_cons in Hin as [[= <- <-]|Hin]; [|by apply IH].
    rewrite fold_reverse_notin by done. by rewrite lookup_insert_eq.
Qed.

Lemma Alphabet_init_consistent (syms : gmap string P) (ph : string) :
  (∀ s s' phm, syms !! s = Some phm → syms !! s' = Some phm → s = s') →
  reverse_consistent (Alphabet_init syms ph).
Proof.
  intros Hinj symbol phm Hs. simpl in *. apply fold_reverse_elem.
  - apply NoDup_fmap_2_strong; [|apply NoDup_map_to_list].
    intros [s q] [s' q'] Hin Hin'. simpl. intros <-.
    apply elem_of_map_to_list in Hin, Hin'. f_equal. eauto.
  - by apply elem_of_map_to_list.
Qed.

Lemma parse_symbolize self str :
  reverse_consistent self →
  ∀ phms, parse self str = Some phms → symbolize self phms = str.
Proof.
  intros Hcons. induction str as [|char str IH]; intros phms; simpl.
  - by intros [= <-].
  - destruct (symbols self !! String char EmptyString) as [phm|] eqn:Hc; [|done].
    destruct (parse self str) as [feats|]; [|done]. intros [= <-].
    rewrite symbolize_cons, (Hcons _ _ Hc), (IH feats) by done. done.
Qed.

End alphabet_facts.

Section alphabet_properties.
Context {P : Type} `{Countable P}.
Implicit Types (self : Alphabet P) (str : string) (phm : P) (phms : list P).

(** X17. [parse] returns, character by character, the phonemes that the
    alphabet gives to the characters of the string, and it raises exactly
    when some character of the string is not a symbol of the alphabet. *)
Theorem parse_characterisation self str :
  (∀ phms,
      parse self str = Some phms ↔
      Forall2 (λ char phm, symbols self !! String char EmptyString = Some phm)
              (String.list_ascii_of_string str) phms)
  ∧ (parse self str = None ↔
     ∃ char, char ∈ String.list_ascii_of_string str
             ∧ symbols self !! String char EmptyString = None).
Proof. split; [intros phms; apply parse_Some | apply parse_None]. Qed.

(** X18. When the dictionary [phonemes] sends the phoneme of every symbol
    back to that symbol, [symbolize] undoes [parse]. *)
Theorem parse_then_symbolize self str phms :
  reverse_consistent self →
  parse self str = Some phms →
  symbolize self phms = str.
Proof. intros Hcons. by apply parse_symbolize. Qed.

(** X19. The constructor builds such an alphabet from a dictionary in
    which no two symbols have the same phoneme, and [update] keeps the
    property when the phoneme is not already that of another symbol. *)
Theorem reverse_consistent_built :
  (∀ (syms : gmap string P) (ph : string),
      (∀ s s' phm, syms !! s = Some phm → syms !! s' = Some phm → s = s') →
      reverse_consistent (Alphabet_init syms ph))
  ∧ (∀ self symbol phm,
        reverse_consistent self →
        (∀ s', s' ≠ symbol → symbols self !! s' ≠ Some phm) →
        reverse_consistent (Alphabet_update self symbol phm)).
Proof.
  split; [apply Alphabet_init_consistent|].
  intros self symbol phm Hcons Hfresh s q. simpl.
  destruct (decide (s = symbol)) as [->|Hne].
  - rewrite lookup_insert_eq. intros [= <-]. by rewrite lookup_insert_eq.
  - rewrite lookup_insert_ne by done. intros Hs.
    rewrite lookup_insert_ne; [by apply Hcons|].
    intros <-. by apply (Hfresh s).
Qed.

(** X20. [update] binds the symbol both ways and removes nothing: the
    symbol then stands for the phoneme, the phoneme is symbolized by it,
    and every other entry of [phonemes] stays; so a phoneme that the symbol
    stood for before is still symbolized by that symbol. *)
Theorem Alphabet_update_binds self symbol phm :
  Alphabet_getitem (Alphabet_update self symbol phm) symbol = Some phm
  ∧ contains_symbol (Alphabet_update self symbol phm) symbol = true
  ∧ contains_feature (Alphabet_update self symbol phm) phm = true
  ∧ symbolize (Alphabet_update self symbol phm) [phm] = symbol
  ∧ (∀ old, old ≠ phm → phonemes self !! old = Some symbol →
            symbolize (Alphabet_update self symbol phm) [old] = symbol).
Proof.
  unfold Alphabet_getitem, contains_symbol, contains_feature, symbolize. simpl.
  rewrite !lookup_insert_eq. split; [done|]. split; [done|]. split; [|split].
  - apply bool_decide_eq_true. apply list_elem_of_fmap.
    exists (symbol, phm). split; [done|].
    apply elem_of_map_to_list. by rewrite lookup_insert_eq.
  - done.
  - intros old Hne Hold. rewrite lookup_insert_ne by done. by rewrite Hold.
Qed.

End alphabet_properties.

Lemma parse_then_symbolize_witness :
  let a : Alphabet nat := Alphabet_init {[ "a"%string := 1 ]} "*" in
  reverse_consistent a
  ∧ parse a "aa" = Some [1; 1]
  ∧ symbolize a [1; 1] = "aa"%string.
Proof.
  simpl.
  assert (reverse_consistent
            (Alphabet_init ({[ "a"%string := 1 ]} : gmap string nat) "*")) as Hc.
  { apply Alphabet_init_consistent. intros s s' phm Hs Hs'.
    apply lookup_singleton_Some in Hs as [<- _].
    by apply lookup_singleton_Some in Hs' as [<- _]. }
  assert (parse (Alphabet_init ({[ "a"%string := 1 ]} : gmap string nat) "*") "aa"
          = Some [1; 1]) as Hp by (vm_compute; reflexivity).
  split; [exact Hc|]. split; [exact Hp|].
  exact (parse_then_symbolize _ _ _ Hc Hp).
Defined.

Lemma reverse_consistent_built_witness :
  let a : Alphabet nat :=
    Alphabet_init {[ "a"%string := 1; "b"%string := 2 ]} "*" in
  (∀ s s' phm, symbols a !! s = Some phm → symbols a !! s' = Some phm → s = s')
  ∧ reverse_consistent a
  ∧ phonemes a !! 2 = Some "b"%string
  ∧ (∀ s', s' ≠ "m"%string → symbols a !! s' ≠ Some 7)
  ∧ reverse_consistent (Alphabet_update a "m" 7)
  ∧ symbolize (Alphabet_update a "m" 7) [7; 1; 2] = "mab"%string.
Proof.
  intros a.
  assert (∀ s phm, symbols a !! s = Some phm →
                   (s = "a"%string ∧ phm = 1) ∨ (s = "b"%string ∧ phm = 2))
    as Hcases.
  { intros s phm Hs. simpl in Hs.
    apply lookup_insert_Some in Hs as [[<- <-]|[_ Hs]]; [by left|].
    apply lookup_singleton_Some in Hs as [<- <-]. by right. }
  assert (∀ s s' phm, symbols a !! s = Some phm → symbols a !! s' = Some phm →
                      s = s') as Hinj.
  { intros s s' phm Hs Hs'.
    destruct (Hcases _ _ Hs) as [[-> ->]|[-> ->]];
      destruct (Hcases _ _ Hs') as [[-> E]|[-> E]]; done. }
  assert (reverse_consistent a) as Hc
    by exact (proj1 reverse_consistent_built _ "*"%string Hinj).
  assert (∀ s', s' ≠ "m"%string → symbols a !! s' ≠ Some 7) as Hfresh.
  { intros s' _ Hs. by destruct (Hcases _ _ Hs) as [[_ E]|[_ E]]. }
  split; [exact Hinj|]. split; [exact Hc|].
  split; [vm_compute; reflexivity|]. split; [exact Hfresh|].
  split; [|vm_compute; reflexivity].
  exact (proj2 reverse_consistent_built a "m"%string 7 Hc Hfresh).
Defined.

Lemma Alphabet_update_binds_witness :
  let a : Alphabet nat := Alphabet_update (Alphabet_init ∅ "*") "m" 7 in
  7 ≠ 8
  ∧ phonemes a !! 7 = Some "m"%string
  ∧ parse (Alphabet_update a "m" 8) "m" = Some [8]
  ∧ symbolize (Alphabet_update a "m" 8) [7] = "m"%string.
Proof.
  simpl.
  assert (7 ≠ 8) as Hne by lia.
  assert (phonemes (Alphabet_update (Alphabet_init (∅ : gmap string nat) "*") "m" 7)
            !! 7 = Some "m"%string) as Hold by (vm_compute; reflexivity).
  split; [exact Hne|]. split; [exact Hold|].
  split; [vm_compute; reflexivity|].
  exact (proj2 (proj2 (proj2 (proj2 (Alphabet_update_binds _ "m"%string 8))))
           7 Hne Hold).
Defined.

(** ** Properties of the rendering *)

Section rendering_facts.
Implicit Types (x y a b t : string) (c d : Ascii.ascii) (l : list string).

Lemma append_cons c x y : String.append (String c x) y = String c (String.append x y).
Proof. reflexivity. Qed.

Lemma append_empty_l y : String.append EmptyString y = y.
Proof. reflexivity. Qed.

Lemma append_last_inj c x y :
  String.append x (String c EmptyString) = String.append y (String c EmptyString) →
  x = y.
Proof.
  revert y. induction x as [|d x IH]; intros [|e y];
    rewrite ?append_cons, ?append_empty_l.
  - done.
  - intros [= <- Hy]. destruct y; discriminate Hy.
  - intros [= <- Hx]. destruct x; discriminate Hx.
  - intros [= <- Hxy]. f_equal. by apply IH.
Qed.

Lemma has_space_cons c x :
  has_space (String c x)
  = if Ascii.eqb c (Ascii.ascii_of_nat 32) then true else has_space x.
Proof. reflexivity. Qed.

Lemma has_space_append_space a x :
  has_space (String.append a (String (Ascii.ascii_of_nat 32) x)) = true.
Proof.
  induction a as [|c a IH]; rewrite ?append_cons, ?append_empty_l, has_space_cons.
  - by rewrite Ascii.eqb_refl.
  - rewrite IH. by destruct (Ascii.eqb c _).
Qed.

(** Two strings without a space, each followed by a space, end at the same
    place. *)
Lemma split_at_space a b x y :
  has_space a = false → has_space b = false →
  String.append a (String (Ascii.ascii_of_nat 32) x)
  = String.append b (String (Ascii.ascii_of_nat 32) y) →
  a = b ∧ x = y.
Proof.
  revert b. induction a as [|c a IH]; intros [|d b];
    rewrite ?append_cons, ?append_empty_l, ?has_space_cons.
  - by intros _ _ [= ->].
  - intros _ Hb [= <- _]. by rewrite Ascii.eqb_refl in Hb.
  - intros Ha _ [= -> _]. by rewrite Ascii.eqb_refl in Ha.
  - intros Ha Hb [= <- Hrest].
    destruct (Ascii.eqb c _); [done|].
    destruct (IH b Ha Hb Hrest) as [-> ->]. done.
Qed.

Lemma concat_cons2 t t' l :
  String.concat " " (t :: t' :: l)
  = String.append t (String (Ascii.ascii_of_nat 32) (String.concat " " (t' :: l))).
Proof. reflexivity. Qed.

Lemma concat_nonempty t l : t ≠ EmptyString → String.concat " " (t :: l) ≠ EmptyString.
Proof.
  intros Ht. destruct l as [|t' l]; [done|]. rewrite concat_cons2.
  destruct t; [done|]. by rewrite append_cons.
Qed.

(** Joining by spaces loses nothing when the tokens are non-empty and
    contain no space. *)
Lemma concat_space_inj l1 :
  ∀ l2,
    Forall (λ t, t ≠ EmptyString ∧ has_space t = false) l1 →
    Forall (λ t, t ≠ EmptyString ∧ has_space t = false) l2 →
    String.concat " " l1 = String.concat " " l2 →
    l1 = l2.
Proof.
  induction l1 as [|t1 l1 IH]; intros [|t2 l2] H1 H2.
  - done.
  - apply Forall_cons in H2 as [[Ht2 _] _]. intros E. symmetry in E.
    by apply concat_nonempty in E.
  - apply Forall_cons in H1 as [[Ht1 _] _]. intros E.
    by apply concat_nonempty in E.
  - apply Forall_cons in H1 as [[Ht1 Hs1] H1], H2 as [[Ht2 Hs2] H2].
    destruct l1 as [|u1 l1], l2 as [|u2 l2].
    + by intros [= ->].
    + rewrite concat_cons2. intros E. change (String.concat " " [t1]) with t1 in E.
      rewrite E, has_space_append_space in Hs1. done.
    + rewrite concat_cons2. intros E. change (String.concat " " [t2]) with t2 in E.
      rewrite <- E, has_space_append_space in Hs2. done.
    + rewrite !concat_cons2. intros E.
      destruct (split_at_space _ _ _ _ Hs1 Hs2 E) as [-> Hrest].
      f_equal. by apply IH.
Qed.

Lemma signed_string_shape (self : Phoneme) key :
  signed_string self key = String.append "+" key ∧ getitem self key = Some true
  ∨ signed_string self key = String.append "-" key ∧ getitem self key ≠ Some true.
Proof.
  unfold signed_string. destruct (getitem self key) as [[]|]; auto.
Qed.

Lemma signed_string_ok (self : Phoneme) key :
  has_space key = false →
  signed_string self key ≠ EmptyString ∧ has_space (signed_string self key) = false.
Proof.
  intros Hk. destruct (signed_string_shape self key) as [[-> _]|[-> _]];
    split; try done; by rewrite has_space_cons.
Qed.

Lemma map_signed_string_inj (A B : Phoneme) l1 :
  ∀ l2,
    map (signed_string A) l1 = map (signed_string B) l2 →
    l1 = l2 ∧ ∀ key, key ∈ l1 →
                     (getitem A key = Some true ↔ getitem B key = Some true).
Proof.
  induction l1 as [|k1 l1 IH]; intros [|k2 l2]; simpl; try done.
  - intros _. split; [done|]. intros key Hin. by apply elem_of_nil in Hin.
  - intros [= Hk Hrest]. destruct (IH _ Hrest) as [-> Hsigns].
    assert (k1 = k2 ∧ (getitem A k1 = Some true ↔ getitem B k1 = Some true))
      as [<- Hsign].
    { destruct (signed_string_shape A k1) as [[EA HA]|[EA HA]];
        destruct (signed_string_shape B k2) as [[EB HB]|[EB HB]];
        rewrite EA, EB in Hk; vm_compute in Hk; simplify_eq; tauto. }
    split; [done|]. intros key [->|Hin]%elem_of_cons; auto.
Qed.

End rendering_facts.

Lemma elem_of_sorted_keys (A : Phoneme) (key : string) :
  key ∈ merge_sort String.le (keys (features A)) ↔ is_Some (getitem A key).
Proof.
  rewrite merge_sort_Permutation, list_elem_of_In. apply elem_of_keys.
Qed.

Lemma keys_without_space (A : Phoneme) :
  forallb (λ key, negb (has_space key)) (keys (features A)) = true →
  ∀ key, is_Some (getitem A key) → has_space key = false.
Proof.
  intros Hall key Hk. apply elem_of_keys in Hk.
  apply negb_true_iff. revert key Hk. by apply forallb_forall.
Qed.

(** X21. [__str__] tells phonemes apart: when no feature name contains a
    space, two phonemes with the same rendering are the same phoneme. *)
Theorem Phoneme_str_injective (A B : Phoneme) :
  (∀ key, is_Some (getitem A key) → has_space key = false) →
  (∀ key, is_Some (getitem B key) → has_space key = false) →
  Phoneme_str A = Phoneme_str B →
  A = B.
Proof.
  intros HA HB E. unfold Phoneme_str in E.
  rewrite !append_cons, !append_empty_l in E. injection E as E.
  apply append_last_inj in E. apply concat_space_inj in E.
  - apply map_signed_string_inj in E as [Hkeys Hsigns].
    apply Phoneme_ext, map_eq. intros key.
    destruct (features A !! key) as [a|] eqn:Ha.
    + assert (key ∈ merge_sort String.le (keys (features A))) as Hin
        by (apply elem_of_sorted_keys; unfold getitem; eauto).
      pose proof Hin as Hin'. rewrite Hkeys in Hin'.
      apply elem_of_sorted_keys in Hin' as [b Hb].
      specialize (Hsigns _ Hin). unfold getitem in *. rewrite Ha, Hb in Hsigns.
      rewrite Hb. f_equal. destruct a, b; try done.
      * discriminate (proj1 Hsigns eq_refl).
      * discriminate (proj2 Hsigns eq_refl).
    + destruct (features B !! key) as [b|] eqn:Hb; [|done].
      assert (key ∈ merge_sort String.le (keys (features B))) as Hin
        by (apply elem_of_sorted_keys; unfold getitem; eauto).
      rewrite <- Hkeys in Hin. apply elem_of_sorted_keys in Hin as [a Ha'].
      unfold getitem in Ha'. congruence.
  - apply Forall_fmap, Forall_forall. intros key Hin.
    apply signed_string_ok, HA. by apply elem_of_sorted_keys.
  - apply Forall_fmap, Forall_forall. intros key Hin.
    apply signed_string_ok, HB. by apply elem_of_sorted_keys.
Qed.

Lemma Phoneme_str_injective_witness :
  (∀ key, is_Some (getitem (update P_nasal P_sonorant) key) →
          has_space key = false)
  ∧ (∀ key, is_Some (getitem P_nasal_sonorant key) → has_space key = false)
  ∧ Phoneme_str (update P_nasal P_sonorant) = Phoneme_str P_nasal_sonorant
  ∧ update P_nasal P_sonorant = P_nasal_sonorant.
Proof.
  assert (∀ key, is_Some (getitem (update P_nasal P_sonorant) key) →
                 has_space key = false) as HA
    by (apply keys_without_space; vm_compute; reflexivity).
  assert (∀ key, is_Some (getitem P_nasal_sonorant key) →
                 has_space key = false) as HB
    by (apply keys_without_space; vm_compute; reflexivity).
  assert (Phoneme_str (update P_nasal P_sonorant) = Phoneme_str P_nasal_sonorant)
    as E by (vm_compute; reflexivity).
  split; [exact HA|]. split; [exact HB|]. split; [exact E|].
  exact (Phoneme_str_injective _ _ HA HB E).
Defined.

(** X22. A phoneme never contradicts a phoneme above it in the order
    [<=], and whatever it contradicts is contradicted by every phoneme
    above it. *)
Theorem contradicts_and_order (A B C : Phoneme) :
  Phoneme_le A B = true →
  contradicts A B = false
  ∧ (contradicts A C = true → contradicts B C = true).
Proof.
  unfold Phoneme_le. rewrite issubset_spec. intros Hle. split.
  - apply contradicts_false. intros feature s t Hs Ht.
    apply Hle in Hs. congruence.
  - rewrite !contradicts_spec. intros (feature & s & Hs & Ht).
    exists feature, s. split; [by apply Hle | done].
Qed.

Lemma contradicts_and_order_witness :
  Phoneme_le P_voice P_voice_labial = true
  ∧ contradicts P_voice P_voice_labial = false
  ∧ contradicts P_voice_labial P_voice_minus = true.
Proof.
  assert (Phoneme_le P_voice P_voice_labial = true) as H by (vm_compute; reflexivity).
  destruct (contradicts_and_order P_voice P_voice_labial P_voice_minus H)
    as [H1 H2].
  split; [exact H|]. split; [exact H1|].
  apply H2. vm_compute; reflexivity.
Defined.
